(** * engarde: the checks of [engarde/checks.py]

    Every check takes a DataFrame, makes its assertion and returns the
    DataFrame it was given.  The checks are embedded as total functions into
    a result type whose error side carries the exception the Python code
    raises together with its [args].

    A cell is a number, an infinity or the missing value [NaN].  The number
    is the exact value the cell holds, a rational: an integer of 64 bits in
    an [int64] column, a binary64 number in a [float64] column.  Every order
    test that involves [NaN] is false, and arithmetic on it gives [NaN].
    Where numpy leaves exact arithmetic the embedding follows it: the
    differences of an [int64] column wrap around, and an integer compared
    with a float is first rounded to binary64.  The mean and the standard
    deviation are computed exactly; the deviation, the square root of a
    rational variance, is compared on squares, which
    [Qabs_lt_mul_sqrt_real] relates to the real square root. *)

From Stdlib Require Import String.
From Stdlib Require Import List Bool Arith ZArith QArith Qround Lia Lqa.
From Stdlib Require Import Sorted Permutation.
From Stdlib Require Import Reals Qreals Lra.
Import ListNotations.

Local Open Scope Q_scope.

(** Linear arithmetic on the rationals and on the reals. *)
Ltac qlra := Lqa.lra.
Ltac qnra := Lqa.nra.
Ltac rlra := Lra.lra.
Ltac rnra := Lra.nra.

(** ** Values *)

Definition Qlt_bool (x y : Q) : bool := negb (Qle_bool y x).

(** [Inf true] is +inf, [Inf false] is -inf. *)
Inductive cell : Type :=
| NaN
| Inf (up : bool)
| Num (q : Q).

Inductive dtype : Type :=
| int64
| float64
| bool_
| object_.

Definition dtype_eqb (a b : dtype) : bool :=
  match a, b with
  | int64, int64 | float64, float64 | bool_, bool_ | object_, object_ => true
  | _, _ => false
  end.

(** A Python number given as an argument: an [int] or a [float]. *)
Inductive scalar : Type :=
| PyInt (z : Z)
| PyFloat (c : cell).

(** A column: its type tag and its cells, one per row. *)
Record Series : Type := mkSeries {
  dtype_of : dtype;
  values : list cell
}.

(** A DataFrame is a Python object: [obj_id] is its identity (what [id(df)]
    returns, two references are the same object exactly when it agrees),
    [index] are the row identifiers and [columns] the named columns in
    their order. *)
Record DataFrame : Type := mkDataFrame {
  obj_id : positive;
  index : list Z;
  columns : list (string * Series)
}.

(** Every column has one cell per row identifier. *)
Definition wf_df (df : DataFrame) : Prop :=
  Forall (fun c => length (values (snd c)) = length (index df)) (columns df).

(** The cells of an [int64] column are integers of 64 bits. *)
Definition int64_range (z : Z) : Prop := (- 2 ^ 63 <= z < 2 ^ 63)%Z.


(** ** Exceptions *)

(** What ends up in [e.args]. *)
Inductive payload : Type :=
| NoArgs
| Locations (locs : list (Z * string))
| ShapeMsg (expected actual : nat * nat)
| Duplicates (ids : list Z)
| NotInSet (bad : list (Z * cell))
| OutsideRange (bad : list (Z * bool))
| WrongDtype (k : string) (v : dtype).

(** [KeyError key] is what the lookup of one name raises;
    [KeyError_not_in_index names] what the lookup of a list of names
    raises, its message listing the names that are not columns. *)
Inductive exn : Type :=
| AssertionError (args : payload)
| KeyError (key : string)
| KeyError_not_in_index (names : list string).

Inductive result (A : Type) : Type :=
| Return (a : A)
| Raise (e : exn).

Arguments Return {A} a.
Arguments Raise {A} e.

Definition bind {A B : Type} (r : result A) (k : A -> result B) : result B :=
  match r with
  | Return a => k a
  | Raise e => Raise e
  end.

Notation "x <- r ;; k" := (bind r (fun x => k))
  (at level 61, r at next level, right associativity).

(** ** Machine numbers *)

Module Numpy.

(** Subtraction of two [int64] wraps around. *)
Definition int64_wrap (z : Z) : Z := ((z + 2 ^ 63) mod 2 ^ 64 - 2 ^ 63)%Z.

(** The multiple of [u] nearest to [a], ties to the even multiple. *)
Definition round_half_even (u a : Z) : Z :=
  let m := (a / u)%Z in
  let r := (a mod u)%Z in
  let m' := if (2 * r <? u)%Z then m
            else if (u <? 2 * r)%Z then (m + 1)%Z
            else if Z.even m then m else (m + 1)%Z in
  (m' * u)%Z.

(** The binary64 number nearest to an integer, ties to even: integers up
    to 2^53 in magnitude are kept, larger ones keep 53 significant bits. *)
Definition f64_of_Z (z : Z) : Z :=
  let a := Z.abs z in
  if (a <=? 2 ^ 53)%Z then z
  else (Z.sgn z * round_half_even (2 ^ (Z.log2 a - 52)) a)%Z.

End Numpy.

(** ** The pandas and numpy operations the checks call *)

Module Pandas.
Import Numpy.

(** [df[k]] *)
Fixpoint lookup (k : string) (cols : list (string * Series)) : option Series :=
  match cols with
  | [] => None
  | (name, s) :: rest => if String.eqb k name then Some s else lookup k rest
  end.

Definition getitem (df : DataFrame) (k : string) : result Series :=
  match lookup k (columns df) with
  | Some s => Return s
  | None => Raise (KeyError k)
  end.

(** Each name once, at the place where it comes first. *)
Fixpoint unique (ks : list string) : list string :=
  match ks with
  | [] => []
  | k :: tl => k :: filter (fun x => negb (String.eqb x k)) (unique tl)
  end.

(** The names of a list that are not columns of the table. *)
Definition not_found (df : DataFrame) (ks : list string) : list string :=
  filter (fun k => match lookup k (columns df) with
                   | Some _ => false
                   | None => true
                   end) ks.

Fixpoint take (df : DataFrame) (ks : list string)
  : result (list (string * Series)) :=
  match ks with
  | [] => Return []
  | k :: rest =>
      s <- getitem df k ;;
      tl <- take df rest ;;
      Return ((k, s) :: tl)
  end.

(** [df[columns]] with a list of names: the sub-table, in the order asked;
    when some names are not columns, one [KeyError] for all of them. *)
Definition getitems (df : DataFrame) (ks : list string)
  : result (list (string * Series)) :=
  match not_found df ks with
  | [] => take df ks
  | missing => Raise (KeyError_not_in_index (unique missing))
  end.

(** Iterating a DataFrame yields its column names. *)
Definition keys (df : DataFrame) : list string := map fst (columns df).

Definition shape (df : DataFrame) : nat * nat :=
  (length (index df), length (columns df)).

Definition dtypes (df : DataFrame) : list (string * dtype) :=
  map (fun c => (fst c, dtype_of (snd c))) (columns df).

Fixpoint dtypes_getitem (k : string) (d : list (string * dtype)) : result dtype :=
  match d with
  | [] => Raise (KeyError k)
  | (name, t) :: rest => if String.eqb k name then Return t else dtypes_getitem k rest
  end.

Definition isnull (c : cell) : bool :=
  match c with NaN => true | _ => false end.

(** [.any()] and [.all()] of a boolean column; [np.all] and the double
    [.any().any()] of a boolean table. *)
Definition any (m : list bool) : bool := existsb (fun b => b) m.
Definition all (m : list bool) : bool := forallb (fun b => b) m.
Definition any_any (m : list (string * list bool)) : bool :=
  any (map (fun c => any (snd c)) m).
Definition np_all (m : list (string * list bool)) : bool :=
  all (map (fun c => all (snd c)) m).

(** [~m] and [a | b] on boolean columns. *)
Definition invert (m : list bool) : list bool := map negb m.
Fixpoint mask_or (a b : list bool) : list bool :=
  match a, b with
  | x :: a', y :: b' => (x || y) :: mask_or a' b'
  | _, _ => []
  end.

(** Comparison of two cells; false when one is missing. *)
Definition cell_lt (a b : cell) : bool :=
  match a, b with
  | Num x, Num y => Qlt_bool x y
  | Inf false, Num _ | Inf false, Inf true | Num _, Inf true => true
  | _, _ => false
  end.

Definition cell_le (a b : cell) : bool :=
  match a, b with
  | Num x, Num y => Qle_bool x y
  | Inf false, Num _ | Inf false, Inf _ | Num _, Inf true
  | Inf true, Inf true => true
  | _, _ => false
  end.

Definition cell_ge (a b : cell) : bool := cell_le b a.

(** What numpy makes of the two sides before it compares a column with a
    Python number: the cells of an [int64] column become binary64 when
    the number is a float, a Python int becomes binary64 when the column
    is [float64]; otherwise both sides are compared as they are. *)
Definition astype_float64 (c : cell) : cell :=
  match c with
  | Num q => Num (inject_Z (f64_of_Z (Qfloor q)))
  | _ => c
  end.

Definition promote_cell (dt : dtype) (x : scalar) (c : cell) : cell :=
  match dt, x with
  | int64, PyFloat _ => astype_float64 c
  | _, _ => c
  end.

Definition promote_scalar (dt : dtype) (x : scalar) : cell :=
  match x with
  | PyFloat c => c
  | PyInt z =>
      match dt with
      | float64 => Num (inject_Z (f64_of_Z z))
      | _ => Num (inject_Z z)
      end
  end.

(** One cell of [x > s] and of [x < s] for a column [s] of type [dt]. *)
Definition scalar_gt (dt : dtype) (x : scalar) (c : cell) : bool :=
  cell_lt (promote_cell dt x c) (promote_scalar dt x).
Definition scalar_lt (dt : dtype) (x : scalar) (c : cell) : bool :=
  cell_lt (promote_scalar dt x) (promote_cell dt x c).

(** One cell of [s > 0] and of [s < 0] for a column of floats. *)
Definition gt_zero (c : cell) : bool := cell_lt (Num 0) c.
Definition lt_zero (c : cell) : bool := cell_lt c (Num 0).

(** Membership as [isin] tests it: numbers by value, and a missing cell
    is a member when the collection holds a missing value. *)
Definition cell_eqb (a b : cell) : bool :=
  match a, b with
  | Num x, Num y => Qeq_bool x y
  | Inf s, Inf t => Bool.eqb s t
  | NaN, NaN => true
  | _, _ => false
  end.
Definition isin (s : list cell) (v : list cell) : list bool :=
  map (fun c => existsb (cell_eqb c) v) s.

(** [df.loc[mask, k]]: the cells of the rows the mask selects, keyed by
    row identifier. *)
Fixpoint loc {A : Type} (idx : list Z) (mask : list bool) (s : list A)
  : list (Z * A) :=
  match idx, mask, s with
  | i :: idx', b :: mask', c :: s' =>
      if b then (i, c) :: loc idx' mask' s' else loc idx' mask' s'
  | _, _, _ => []
  end.

(** A column as a series keyed by the row identifiers. *)
Definition keyed {A : Type} (idx : list Z) (s : list A) : list (Z * A) :=
  combine idx s.

(** [Index.is_monotonic_increasing] (alias [is_monotonic]) and
    [Index.is_monotonic_decreasing].  No element is monotonic both ways;
    one element is, unless it is missing; otherwise every element has to
    compare [<=] (resp. [>=]) with the next, which a missing one never
    does. *)
Fixpoint increasing_from (prev : cell) (s : list cell) : bool :=
  match s with
  | [] => true
  | c :: tl => cell_le prev c && increasing_from c tl
  end.

Fixpoint decreasing_from (prev : cell) (s : list cell) : bool :=
  match s with
  | [] => true
  | c :: tl => cell_ge prev c && decreasing_from c tl
  end.

Definition is_monotonic_increasing (s : list cell) : bool :=
  match s with
  | [] => true
  | [c] => negb (isnull c)
  | c :: tl => increasing_from c tl
  end.

Definition is_monotonic_decreasing (s : list cell) : bool :=
  match s with
  | [] => true
  | [c] => negb (isnull c)
  | c :: tl => decreasing_from c tl
  end.

(** The difference [a - b] of two cells of a column of type [dt].  In an
    [int64] column it is taken on 64 bits and wraps around.  Otherwise it
    is the exact difference: the binary64 difference of two numbers is
    zero only when they are equal and has the sign of the exact one, and
    only its sign is ever looked at.  Two infinities of the same sign
    give [NaN]. *)
Definition cell_sub (dt : dtype) (a b : cell) : cell :=
  match a, b with
  | Num x, Num y =>
      match dt with
      | int64 => Num (inject_Z (int64_wrap (Qfloor x - Qfloor y)))
      | _ => Num (x - y)
      end
  | NaN, _ | _, NaN => NaN
  | Inf s, Inf t => if Bool.eqb s t then NaN else Inf s
  | Inf s, Num _ => Inf s
  | Num _, Inf t => Inf (negb t)
  end.

(** [.diff()]: the difference with the previous row, missing on the first
    row; [.dropna()]. *)
Fixpoint diff_from (dt : dtype) (prev : cell) (s : list cell) : list cell :=
  match s with
  | [] => []
  | c :: tl => cell_sub dt c prev :: diff_from dt c tl
  end.

Definition diff (s : Series) : list cell :=
  match values s with
  | [] => []
  | c :: tl => NaN :: diff_from (dtype_of s) c tl
  end.

Definition dropna (s : list cell) : list cell :=
  filter (fun c => negb (isnull c)) s.

(** [.mean()] and [.std()] of a column skip missing cells.  They give no
    finite number ([None]) for the mean of no value, for the (sample,
    ddof = 1) deviation of fewer than two values, and for both as soon as
    the column holds an infinity: the mean is then infinite or [NaN], and
    the deviation [NaN]. *)
Definition has_inf (s : list cell) : bool :=
  existsb (fun c => match c with Inf _ => true | _ => false end) s.

Fixpoint present (s : list cell) : list Q :=
  match s with
  | [] => []
  | Num q :: tl => q :: present tl
  | _ :: tl => present tl
  end.

Definition Qsum (l : list Q) : Q := fold_right Qplus 0 l.

Definition Qlen (l : list Q) : Q := inject_Z (Z.of_nat (length l)).

(** [.mean()] of a column, missing cells skipped.  [None] stands for a
    result that is not a finite number: no cell to average, or an infinity
    among the cells.  The value is the exact mean, which the binary64
    result of pandas equals when no step of the computation rounds. *)
Definition mean (s : list cell) : option Q :=
  if has_inf s then None
  else match present s with
       | [] => None
       | l => Some (Qsum l / Qlen l)
       end.

Definition sq (x : Q) : Q := x * x.

(** The variance under the root of [.std()], with [ddof = 1]: [None],
    pandas' [NaN], with fewer than two cells to use or with an infinity
    among them.  Exact like the mean. *)
Definition var (s : list cell) : option Q :=
  let l := present s in
  if has_inf s || (length l <? 2)%nat then None
  else Some (Qsum (map (fun x => sq (x - Qsum l / Qlen l)) l) / (Qlen l - 1)).

(** [|d| < n * sqrt v], decided without leaving the rationals. *)
Definition Qabs_lt_mul_sqrt (d n v : Q) : bool :=
  Qlt_bool 0 n && Qlt_bool (sq d) (sq n * v).

(** One cell of [np.abs(df - means) < n * stds]: false as soon as the
    cell, the mean or the deviation of its column is not a finite
    number. *)
Definition abs_dev_lt (c : cell) (m : option Q) (n : Q) (v : option Q) : bool :=
  match c, m, v with
  | Num x, Some mu, Some s2 => Qabs_lt_mul_sqrt (x - mu) n s2
  | _, _, _ => false
  end.

End Pandas.

(** More of the index: uniqueness and the duplicated identifiers. *)
Module Index.

Definition count (x : Z) (l : list Z) : nat := count_occ Z.eq_dec l x.

(** [Index.is_unique] *)
Fixpoint is_unique (l : list Z) : bool :=
  match l with
  | [] => true
  | x :: tl => negb (existsb (Z.eqb x) tl) && is_unique tl
  end.

(** The keys of the counter [get_duplicates] fills, each once, in the
    order they are first met. *)
Fixpoint counter_keys (l : list Z) : list Z :=
  match l with
  | [] => []
  | x :: tl => x :: filter (fun y => negb (Z.eqb y x)) (counter_keys tl)
  end.

Fixpoint insert (x : Z) (l : list Z) : list Z :=
  match l with
  | [] => [x]
  | y :: tl => if (x <=? y)%Z then x :: l else y :: insert x tl
  end.

Definition sorted (l : list Z) : list Z := fold_right insert [] l.

(** [Index.get_duplicates]: the identifiers counted more than once,
    sorted. *)
Definition get_duplicates (l : list Z) : list Z :=
  sorted (filter (fun k => (1 <? count k l)%nat) (counter_keys l)).

End Index.

(** ** [engarde/utils.py] *)

Module Utils.

(** A boolean table: one named boolean column per checked column. *)
Definition mask : Type := list (string * list bool).

Definition tails (m : mask) : mask := map (fun c => (fst c, tl (snd c))) m.

(** Modelled from the spec: [engarde/utils.py], where [bad_locations]
    lives, is not among the sources.  For a multi-column elementwise
    mask it produces the (row identifier, column name) pairs where the
    mask is true, in row order then column order of the mask. *)
Fixpoint bad_locations (idx : list Z) (m : mask) : list (Z * string) :=
  match idx with
  | [] => []
  | i :: idx' =>
      map (fun c => (i, fst c)) (filter (fun c => hd false (snd c)) m)
      ++ bad_locations idx' (tails m)
  end.

End Utils.

(** ** [engarde/checks.py] *)

Module Checks.
Import Pandas Utils.

Definition isnull_table (sub : list (string * Series)) : mask :=
  map (fun c => (fst c, map isnull (values (snd c)))) sub.

Definition none_missing (df : DataFrame) (columns : option (list string))
  : result DataFrame :=
  let columns := match columns with
                 | None => keys df
                 | Some c => c
                 end in
  sub <- getitems df columns ;;
  if any_any (isnull_table sub) then
    let missing := isnull_table sub in
    let msg := bad_locations (index df) missing in
    Raise (AssertionError (Locations msg))
  else Return df.

(** Python's [dict] keeps one entry per key, at the place of the first. *)
Fixpoint dict_keys (ks : list string) : list string :=
  match ks with
  | [] => []
  | k :: tl => k :: filter (fun x => negb (String.eqb x k)) (dict_keys tl)
  end.

(** The body of the loop of [is_monotonic] for one column [s]. *)
Definition monotonic_good (s : Series) (increasing : option bool)
           (strict : bool) : bool :=
  let good :=
    match increasing with
    | Some true => is_monotonic_increasing (values s)
    | None => is_monotonic_increasing (values s)
              || is_monotonic_decreasing (values s)
    | Some false => is_monotonic_decreasing (values s)
    end in
  if strict then
    match increasing with
    | Some true =>
        good && all (map gt_zero (dropna (diff s)))
    | None =>
        good && (all (map gt_zero (dropna (diff s)))
                 || all (map lt_zero (dropna (diff s))))
    | Some false =>
        good && all (map lt_zero (dropna (diff s)))
    end
  else good.

Fixpoint is_monotonic_loop (df : DataFrame)
         (items : list (string * (option bool * bool))) : result DataFrame :=
  match items with
  | [] => Return df
  | (col, (increasing, strict)) :: rest =>
      s <- getitem df col ;;
      if negb (monotonic_good s increasing strict)
      then Raise (AssertionError NoArgs)
      else is_monotonic_loop df rest
  end.

Definition is_monotonic (df : DataFrame)
           (items : option (list (string * (option bool * bool))))
           (increasing : option bool) (strict : bool) : result DataFrame :=
  let items := match items with
               | None => map (fun k => (k, (increasing, strict)))
                             (dict_keys (keys df))
               | Some i => i
               end in
  is_monotonic_loop df items.

Definition shape_eqb (a b : nat * nat) : bool :=
  Nat.eqb (fst a) (fst b) && Nat.eqb (snd a) (snd b).

Definition is_shape (df : DataFrame) (shape : nat * nat) : result DataFrame :=
  if shape_eqb (Pandas.shape df) shape then Return df
  else Raise (AssertionError (ShapeMsg shape (Pandas.shape df))).

Definition unique_index (df : DataFrame) : result DataFrame :=
  if Index.is_unique (index df) then Return df
  else Raise (AssertionError (Duplicates (Index.get_duplicates (index df)))).

Fixpoint within_set (df : DataFrame) (items : list (string * list cell))
  : result DataFrame :=
  match items with
  | [] => Return df
  | (k, v) :: rest =>
      s <- getitem df k ;;
      if negb (all (isin (values s) v)) then
        let bad := loc (index df) (invert (isin (values s) v)) (values s) in
        Raise (AssertionError (NotInSet bad))
      else within_set df rest
  end.

Fixpoint within_range (df : DataFrame)
         (items : list (string * (scalar * scalar)))
  : result DataFrame :=
  match items with
  | [] => Return df
  | (k, (lower, upper)) :: rest =>
      s <- getitem df k ;;
      if any (map (scalar_gt (dtype_of s) lower) (values s))
         || any (map (scalar_lt (dtype_of s) upper) (values s)) then
        let bad := mask_or (map (scalar_gt (dtype_of s) lower) (values s))
                           (map (scalar_lt (dtype_of s) upper) (values s)) in
        Raise (AssertionError (OutsideRange (keyed (index df) bad)))
      else within_range df rest
  end.

(** [df.mean()] and [df.std()], one entry per column; the deviation is
    given by the variance under its root. *)
Definition df_mean (df : DataFrame) : list (option Q) :=
  map (fun c => mean (values (snd c))) (columns df).
Definition df_std (df : DataFrame) : list (option Q) :=
  map (fun c => var (values (snd c))) (columns df).

(** [np.abs(df - means) < n * stds], column by column. *)
Fixpoint abs_dev_lt_table (cols : list (string * Series))
         (means : list (option Q)) (n : Q) (stds : list (option Q)) : mask :=
  match cols, means, stds with
  | (name, s) :: cols', m :: means', v :: stds' =>
      (name, map (fun c => abs_dev_lt c m n v) (values s))
      :: abs_dev_lt_table cols' means' n stds'
  | _, _, _ => []
  end.

Definition invert_table (m : mask) : mask :=
  map (fun c => (fst c, invert (snd c))) m.

Definition within_n_std (df : DataFrame) (n : Q) : result DataFrame :=
  let means := df_mean df in
  let stds := df_std df in
  let inliers := abs_dev_lt_table (columns df) means n stds in
  if negb (np_all inliers) then
    let msg := bad_locations (index df) (invert_table inliers) in
    Raise (AssertionError (Locations msg))
  else Return df.

Fixpoint has_dtypes_loop (df : DataFrame) (dtypes : list (string * dtype))
         (items : list (string * dtype)) : result DataFrame :=
  match items with
  | [] => Return df
  | (k, v) :: rest =>
      t <- dtypes_getitem k dtypes ;;
      if negb (dtype_eqb t v) then Raise (AssertionError (WrongDtype k v))
      else has_dtypes_loop df dtypes rest
  end.

Definition has_dtypes (df : DataFrame) (items : list (string * dtype))
  : result DataFrame :=
  let dtypes := Pandas.dtypes df in
  has_dtypes_loop df dtypes items.

(** The default of the parameter [n] of [within_n_std]. *)
Definition default_n : Q := 3.

(** A call of one of the checks [__all__] lists, with its arguments. *)
Inductive call : Type :=
| call_none_missing (columns : option (list string))
| call_is_monotonic (items : option (list (string * (option bool * bool))))
                    (increasing : option bool) (strict : bool)
| call_is_shape (shape : nat * nat)
| call_unique_index
| call_within_set (items : list (string * list cell))
| call_within_range (items : list (string * (scalar * scalar)))
| call_within_n_std (n : Q)
| call_has_dtypes (items : list (string * dtype)).

Definition apply_check (c : call) (df : DataFrame) : result DataFrame :=
  match c with
  | call_none_missing columns => none_missing df columns
  | call_is_monotonic items increasing strict =>
      is_monotonic df items increasing strict
  | call_is_shape shape => is_shape df shape
  | call_unique_index => unique_index df
  | call_within_set items => within_set df items
  | call_within_range items => within_range df items
  | call_within_n_std n => within_n_std df n
  | call_has_dtypes items => has_dtypes df items
  end.

End Checks.

Import Pandas Utils Checks.



Import Numpy Pandas Utils Checks.

(** * Vocabulary of the properties *)

(** ** Ranges and sets *)

(** A cell of a column of type [dt] is bad for the bounds when
    [lower > cell] or [upper < cell]. *)
Definition out_of_range (dt : dtype) (lower upper : scalar) (c : cell) : bool :=
  scalar_gt dt lower c || scalar_lt dt upper c.

(** An entry of [items] passes on [df]: its column is there and none of its
    cells is bad. *)
Definition range_ok (df : DataFrame) (it : string * (scalar * scalar)) : Prop :=
  exists s, getitem df (fst it) = Return s /\
            forall c, In c (values s) ->
                      out_of_range (dtype_of s) (fst (snd it)) (snd (snd it)) c
                      = false.





(** [value in allowed], as [isin] decides it for one cell. *)
Definition member (allowed : list cell) (c : cell) : bool :=
  existsb (cell_eqb c) allowed.

(** An entry of [items] passes on [df]: its column is there and each of its
    cells is a member of the allowed collection. *)
Definition set_ok (df : DataFrame) (it : string * list cell) : Prop :=
  exists s, getitem df (fst it) = Return s /\
            forall c, In c (values s) -> member (snd it) c = true.

(** The rows of a column that are not members, keyed by row identifier. *)
Definition non_members (df : DataFrame) (allowed : list cell) (s : Series)
  : list (Z * cell) :=
  filter (fun p => negb (member allowed (snd p)))
         (combine (index df) (values s)).

(** ** Order *)

(** [a] is immediately followed by [b] in the column. *)
Definition adjacent (s : list cell) (a b : cell) : Prop :=
  exists l1 l2, s = l1 ++ a :: b :: l2.

(** The order of the cells: [-inf] below every number, every number below
    [+inf], and a missing cell in no relation to any other. *)
Definition cell_leq (a b : cell) : Prop :=
  match a, b with
  | NaN, _ | _, NaN => False
  | Inf false, _ | _, Inf true => True
  | Num x, Num y => x <= y
  | _, _ => False
  end.

Definition cell_below (a b : cell) : Prop :=
  match a, b with
  | NaN, _ | _, NaN => False
  | Num x, Num y => x < y
  | Inf false, Inf false | Inf true, _ | _, Inf false => False
  | _, _ => True
  end.

(** [b] is strictly above [a], or both are the same infinity (whose
    difference is no number and is dropped by the strict test). *)
Definition rises (a b : cell) : Prop :=
  cell_below a b \/ exists t, a = Inf t /\ b = Inf t.

(** Each item compares consistently with its predecessor. *)
Definition ordered (R : cell -> cell -> Prop) (s : list cell) : Prop :=
  forall a b, adjacent s a b -> R a b.

(** A column of one cell has to hold a value. *)
Definition lone_value (s : list cell) : Prop :=
  forall c, s = [c] -> isnull c = false.

Definition non_decreasing (s : list cell) : Prop :=
  lone_value s /\ ordered cell_leq s.
Definition non_increasing (s : list cell) : Prop :=
  lone_value s /\ ordered (fun a b => cell_leq b a) s.



(** The two tests the strict branch makes on the differences. *)
Definition diffs_positive (s : Series) : bool :=
  all (map gt_zero (dropna (diff s))).
Definition diffs_negative (s : Series) : bool :=
  all (map lt_zero (dropna (diff s))).

(** In an [int64] column the difference of two consecutive cells fits in
    64 bits. *)
Definition diffs_fit (s : Series) : Prop :=
  dtype_of s = int64 ->
  forall x y, adjacent (values s) (Num x) (Num y) ->
    exists zx zy, x == inject_Z zx /\ y == inject_Z zy /\
                  int64_range (zy - zx).

(** The same of one pair of cells of a column of type [dt]. *)
Definition fits (dt : dtype) (a b : cell) : Prop :=
  dt = int64 -> forall x y, a = Num x -> b = Num y ->
  exists zx zy, x == inject_Z zx /\ y == inject_Z zy /\ int64_range (zy - zx).



(** The tables of the counterexamples: one row holding a missing cell; a
    column that is +inf throughout; an ascending [int64] column whose
    first difference does not fit in 64 bits. *)
Definition lone_nan_table : DataFrame :=
  mkDataFrame 1%positive [0%Z] [("a"%string, mkSeries float64 [NaN])].





(** ** Outliers *)

(** [|x - mu| < n * sigma] over the reals, the deviation [sigma] being the
    square root of the variance [v]. *)
Definition within_n_sigma (x mu n v : Q) : Prop :=
  (Rabs (Q2R x - Q2R mu) < Q2R n * sqrt (Q2R v))%R.

(** The value sits exactly [n] deviations above or below the mean. *)
Definition at_n_sigma (x mu n v : Q) : Prop :=
  (Q2R x = Q2R mu + Q2R n * sqrt (Q2R v) \/
   Q2R x = Q2R mu - Q2R n * sqrt (Q2R v))%R.

(** A cell of the column [s] is an inlier: it is a number, the column has a
    mean and a deviation, and the cell is strictly within [n] deviations of
    the mean. *)
Definition inlier (s : list cell) (n : Q) (c : cell) : Prop :=
  exists x mu v, c = Num x /\ mean s = Some mu /\ var s = Some v /\
                 within_n_sigma x mu n v.

(** The mask [within_n_std] computes, as one map over the columns. *)
Definition inlier_mask (df : DataFrame) (n : Q) : mask :=
  map (fun c => (fst c,
                 map (fun x => abs_dev_lt x (mean (values (snd c))) n
                                          (var (values (snd c))))
                     (values (snd c))))
      (columns df).

Definition Zsum (l : list Z) : Z := fold_right Z.add 0%Z l.

(** A column on which binary64 arithmetic makes no rounding error, so
    that the mean, the deviation and the bound [n * std] pandas computes
    are the exact ones: the cells are the integers [zs], their mean [mu]
    and their standard deviation [sigma] are integers, [n] is the integer
    [k], and the sums and the product [k * sigma] stay within 2^53. *)
Definition exact_column (s : list cell) (n : Q) : Prop :=
  exists (zs : list Z) (mu sigma k : Z),
    s = map (fun z => Num (inject_Z z)) zs /\
    (2 <= length zs)%nat /\
    Zsum zs = (Z.of_nat (length zs) * mu)%Z /\
    Zsum (map (fun z : Z => ((z - mu) ^ 2)%Z) zs)
    = ((Z.of_nat (length zs) - 1) * sigma ^ 2)%Z /\
    (0 <= sigma)%Z /\
    n == inject_Z k /\
    (Zsum (map Z.abs zs) <= 2 ^ 53)%Z /\
    (Zsum (map (fun z : Z => ((z - mu) ^ 2)%Z) zs) <= 2 ^ 53)%Z /\
    (Z.abs k * sigma <= 2 ^ 53)%Z.

Definition exact_table (df : DataFrame) (n : Q) : Prop :=
  forall name s, In (name, s) (columns df) -> exact_column (values s) n.

(** The column and the table of the counterexample: ten small values and
    one at 10; the mean is 1 and the deviation is 3. *)
Definition boundary_column : Series :=
  mkSeries int64
    [Num 10; Num 1; Num 0; Num 0; Num 0; Num 0; Num 0; Num 0; Num 0; Num 0;
     Num 0].

Definition boundary_table : DataFrame :=
  mkDataFrame 1%positive [0; 1; 2; 3; 4; 5; 6; 7; 8; 9; 10]%Z
              [("x"%string, boundary_column)].

(** ** Vocabulary of the further properties *)

(** The column holds no missing cell. *)
Definition no_missing (s : Series) : Prop :=
  forall c, In c (values s) -> isnull c = false.

(** An entry of the [items] of [has_dtypes] passes on [df]: its column is
    there and carries the expected type tag. *)
Definition dtype_ok (df : DataFrame) (it : string * dtype) : Prop :=
  exists s, getitem df (fst it) = Return s /\ dtype_of s = snd it.

(** An entry of the [items] of [is_monotonic] passes on [df]: its column
    is there and is good for the entry's direction and strictness. *)
Definition monotonic_ok (df : DataFrame)
           (it : string * (option bool * bool)) : Prop :=
  exists s, getitem df (fst it) = Return s /\
            monotonic_good s (fst (snd it)) (snd (snd it)) = true.

(** What a direction and a strictness ask of a column: without [strict]
    ties are allowed; with [strict] each value is strictly below (resp.
    above) the next, save that an infinity may repeat; with the direction
    [None] either order will do. *)
Definition monotone_as (increasing : option bool) (strict : bool)
           (s : list cell) : Prop :=
  match increasing, strict with
  | Some true, false => non_decreasing s
  | Some true, true => lone_value s /\ ordered rises s
  | Some false, false => non_increasing s
  | Some false, true => lone_value s /\ ordered (fun a b => rises b a) s
  | None, false => non_decreasing s \/ non_increasing s
  | None, true =>
      lone_value s /\ (ordered rises s \/ ordered (fun a b => rises b a) s)
  end.

(** An entry of the [items] of [is_monotonic] is met by the table. *)
Definition monotone_entry (df : DataFrame)
           (it : string * (option bool * bool)) : Prop :=
  exists s, getitem df (fst it) = Return s /\
            monotone_as (fst (snd it)) (snd (snd it)) (values s).



Definition wider_set (it it' : string * list cell) : Prop :=
  fst it = fst it' /\ incl (snd it) (snd it').

(** The calls that name no column: the arguments that could name one are
    left at their default. *)
Definition names_no_column (c : call) : Prop :=
  match c with
  | call_none_missing None | call_is_monotonic None _ _
  | call_is_shape _ | call_unique_index | call_within_n_std _ => True
  | _ => False
  end.

(** * Properties *)

(** ** Machine numbers *)

Local Open Scope Z_scope.

Lemma int64_wrap_fits (z : Z) : int64_range z -> Numpy.int64_wrap z = z.
Proof.
  unfold int64_range, Numpy.int64_wrap. intro H.
  rewrite Z.mod_small; lia.
Qed.









Local Close Scope Z_scope.

(** ** Comparisons of rationals and cells *)

Lemma Qlt_bool_iff (x y : Q) : Qlt_bool x y = true <-> x < y.
Proof.
  unfold Qlt_bool. rewrite negb_true_iff.
  split; intro H.
  - apply Qnot_le_lt. intro Hle. apply Qle_bool_iff in Hle. congruence.
  - destruct (Qle_bool y x) eqn:E; [|reflexivity].
    apply Qle_bool_iff in E. exfalso. exact (Qlt_not_le _ _ H E).
Qed.

Lemma Qlt_bool_false_iff (x y : Q) : Qlt_bool x y = false <-> y <= x.
Proof.
  unfold Qlt_bool. rewrite negb_false_iff. apply Qle_bool_iff.
Qed.

(** ** Every check hands back the DataFrame it was given *)

Lemma bind_Return {A B : Type} (r : result A) (k : A -> result B) (b : B) :
  bind r k = Return b -> exists a, r = Return a /\ k a = Return b.
Proof.
  destruct r as [a|e]; simpl; intro H; [eauto | discriminate].
Qed.

Ltac inv_return :=
  repeat match goal with
  | H : bind _ _ = Return _ |- _ =>
      apply bind_Return in H; destruct H as (? & ? & H)
  | H : (if ?b then _ else _) = Return _ |- _ => destruct b; try discriminate
  | H : Return _ = Return _ |- _ => injection H as H
  | H : Raise _ = Return _ |- _ => discriminate H
  end.

Lemma is_monotonic_loop_returns df items df' :
  is_monotonic_loop df items = Return df' -> df' = df.
Proof.
  induction items as [|[col [inc st]] rest IH]; simpl; intro H; inv_return; auto.
Qed.

Lemma within_set_returns df items df' :
  within_set df items = Return df' -> df' = df.
Proof.
  induction items as [|[k v] rest IH]; simpl; intro H; inv_return; auto.
Qed.

Lemma within_range_returns df items df' :
  within_range df items = Return df' -> df' = df.
Proof.
  induction items as [|[k [lo up]] rest IH]; simpl; intro H; inv_return; auto.
Qed.

Lemma has_dtypes_loop_returns df d items df' :
  has_dtypes_loop df d items = Return df' -> df' = df.
Proof.
  induction items as [|[k v] rest IH]; simpl; intro H; inv_return; auto.
Qed.

Lemma apply_check_returns c df df' :
  apply_check c df = Return df' -> df' = df.
Proof.
  destruct c; simpl; intro H.
  - unfold none_missing in H. inv_return; auto.
  - unfold is_monotonic in H. eapply is_monotonic_loop_returns; eauto.
  - unfold is_shape in H. inv_return; auto.
  - unfold unique_index in H. inv_return; auto.
  - eapply within_set_returns; eauto.
  - eapply within_range_returns; eauto.
  - unfold within_n_std in H. inv_return; auto.
  - unfold has_dtypes in H. eapply has_dtypes_loop_returns; eauto.
Qed.

(** C2. Whichever of the eight checks is called and whatever its
    arguments, a call that succeeds returns the DataFrame it received: the
    same object (same [obj_id]) with the same index and columns, so that
    any check applied to the result is applied to the original table. *)
Theorem pass_through_identity (c : call) (df df' : DataFrame) :
  apply_check c df = Return df' ->
  df' = df /\
  obj_id df' = obj_id df /\
  forall c', apply_check c' df' = apply_check c' df.
Proof.
  intro H. apply apply_check_returns in H. subst df'. auto.
Qed.

Lemma pass_through_identity_witness :
  let df := mkDataFrame 7%positive [1; 2; 3]%Z
              [("a"%string, mkSeries int64 [Num 1; Num 2; Num 2])] in
  apply_check (call_within_range [("a"%string, (PyInt 1, PyInt 2))]) df
  = Return df /\
  (df = df /\ obj_id df = obj_id df /\
   forall c', apply_check c' df = apply_check c' df).
Proof.
  intro df. split; [reflexivity|].
  apply (pass_through_identity
           (call_within_range [("a"%string, (PyInt 1, PyInt 2))]) df df).
  reflexivity.
Defined.

(** ** The index: uniqueness and duplicates *)

Lemma existsb_Zeqb_In (x : Z) (l : list Z) :
  existsb (Z.eqb x) l = true <-> In x l.
Proof.
  rewrite existsb_exists. split.
  - intros (y & Hy & E). apply Z.eqb_eq in E. now subst.
  - intro H. exists x. split; [assumption | apply Z.eqb_refl].
Qed.

Lemma is_unique_NoDup (l : list Z) : Index.is_unique l = true <-> NoDup l.
Proof.
  induction l as [|x tl IH]; simpl.
  - split; [constructor | reflexivity].
  - rewrite andb_true_iff, negb_true_iff, IH. split.
    + intros [Hx Htl]. constructor; [|assumption].
      intro Hin. apply existsb_Zeqb_In in Hin. congruence.
    + intro H. inversion H as [|? ? Hx Htl]; subst. split; [|assumption].
      destruct (existsb (Z.eqb x) tl) eqn:E; [|reflexivity].
      apply existsb_Zeqb_In in E. contradiction.
Qed.

Lemma NoDup_count_one (l : list Z) :
  NoDup l <-> forall x, In x l -> Index.count x l = 1%nat.
Proof.
  unfold Index.count. rewrite (NoDup_count_occ Z.eq_dec). split.
  - intros H x Hin. specialize (H x).
    apply (count_occ_In Z.eq_dec) in Hin. lia.
  - intros H x. destruct (in_dec Z.eq_dec x l) as [Hin|Hn].
    + rewrite (H x Hin). lia.
    + apply (count_occ_not_In Z.eq_dec) in Hn. lia.
Qed.

Lemma counter_keys_In (l : list Z) (x : Z) :
  In x (Index.counter_keys l) <-> In x l.
Proof.
  induction l as [|y tl IH]; simpl; [tauto|].
  rewrite filter_In, IH, negb_true_iff, Z.eqb_neq.
  destruct (Z.eq_dec y x); intuition congruence.
Qed.

Lemma counter_keys_NoDup (l : list Z) : NoDup (Index.counter_keys l).
Proof.
  induction l as [|y tl IH]; simpl; constructor.
  - rewrite filter_In, negb_true_iff, Z.eqb_neq. tauto.
  - now apply NoDup_filter.
Qed.

Lemma insert_Permutation (x : Z) (l : list Z) :
  Permutation (x :: l) (Index.insert x l).
Proof.
  induction l as [|y tl IH]; simpl; [reflexivity|].
  destruct (x <=? y)%Z; [reflexivity|].
  rewrite perm_swap. now constructor.
Qed.

Lemma sorted_Permutation (l : list Z) : Permutation l (Index.sorted l).
Proof.
  induction l as [|x tl IH]; simpl; [constructor|].
  rewrite <- insert_Permutation. now constructor.
Qed.

Lemma insert_Sorted (x : Z) (l : list Z) :
  Sorted Z.le l -> Sorted Z.le (Index.insert x l).
Proof.
  induction l as [|y tl IH]; simpl; intro H.
  - repeat constructor.
  - destruct (x <=? y)%Z eqn:E.
    + constructor; [assumption|]. constructor. now apply Z.leb_le.
    + apply Z.leb_gt in E. inversion H as [|? ? Htl Hhd]; subst.
      constructor; [now apply IH|].
      destruct tl as [|z tl']; simpl.
      * constructor. lia.
      * destruct (x <=? z)%Z; constructor; [lia|].
        inversion Hhd; subst. assumption.
Qed.

Lemma sorted_Sorted (l : list Z) : Sorted Z.le (Index.sorted l).
Proof.
  induction l as [|x tl IH]; simpl; [constructor | now apply insert_Sorted].
Qed.

Lemma get_duplicates_In (l : list Z) (x : Z) :
  In x (Index.get_duplicates l) <-> (2 <= Index.count x l)%nat.
Proof.
  unfold Index.get_duplicates.
  transitivity (In x (filter (fun k => (1 <? Index.count k l)%nat)
                             (Index.counter_keys l))).
  - split; apply Permutation_in;
      [symmetry|]; apply sorted_Permutation.
  - rewrite filter_In, counter_keys_In, Nat.ltb_lt. split; [lia|].
    intro H. split; [|lia].
    apply (count_occ_In Z.eq_dec). unfold Index.count in H. lia.
Qed.

Lemma get_duplicates_NoDup (l : list Z) : NoDup (Index.get_duplicates l).
Proof.
  unfold Index.get_duplicates.
  eapply Permutation_NoDup; [apply sorted_Permutation|].
  apply NoDup_filter, counter_keys_NoDup.
Qed.

(** C8. [unique_index] returns the table exactly when every row identifier
    of the index occurs once.  Otherwise it raises an [AssertionError] whose
    [args] are the duplicated identifiers themselves, each listed once (in
    ascending order): an identifier is listed exactly when it occurs at
    least twice.  The index [1, 2, 2, 3] fails with the duplicates [2] and
    the index [1, 2, 3] passes. *)
Theorem unique_index_duplicates (df : DataFrame) :
  (unique_index df = Return df <->
   forall x, In x (index df) -> Index.count x (index df) = 1%nat) /\
  (unique_index df <> Return df ->
   exists d, unique_index df = Raise (AssertionError (Duplicates d)) /\
             NoDup d /\ Sorted Z.le d /\
             forall x, In x d <-> (2 <= Index.count x (index df))%nat) /\
  (forall o cols,
     unique_index (mkDataFrame o [1; 2; 2; 3]%Z cols)
     = Raise (AssertionError (Duplicates [2%Z]))) /\
  (forall o cols,
     unique_index (mkDataFrame o [1; 2; 3]%Z cols)
     = Return (mkDataFrame o [1; 2; 3]%Z cols)).
Proof.
  unfold unique_index. repeat split.
  - destruct (Index.is_unique (index df)) eqn:E; [|discriminate].
    intros _. apply NoDup_count_one, is_unique_NoDup, E.
  - intro H. apply NoDup_count_one, is_unique_NoDup in H. now rewrite H.
  - destruct (Index.is_unique (index df)); [congruence|]. intros _.
    eexists. split; [reflexivity|].
    split; [apply get_duplicates_NoDup|].
    split; [apply sorted_Sorted | apply get_duplicates_In].
Qed.

Lemma unique_index_duplicates_witness :
  let df := mkDataFrame 1%positive [4; 9; 4; 9; 5]%Z [] in
  exists d, unique_index df = Raise (AssertionError (Duplicates d)) /\
            NoDup d /\ Sorted Z.le d /\
            forall x, In x d <-> (2 <= Index.count x (index df))%nat.
Proof.
  intro df. apply (unique_index_duplicates df). discriminate.
Defined.


(** ** The order of the cells *)

Lemma cell_lt_Num_iff (x y : Q) : cell_lt (Num x) (Num y) = true <-> x < y.
Proof. simpl. apply Qlt_bool_iff. Qed.

Lemma cell_lt_irrefl (a : cell) : cell_lt a a = false.
Proof.
  destruct a as [|[|]|x]; simpl; try reflexivity.
  apply Qlt_bool_false_iff. apply Qle_refl.
Qed.




Lemma Qfloor_inject_Z (v : Q) (z : Z) : v == inject_Z z -> Qfloor v = z.
Proof.
  intro H. rewrite (Qfloor_comp _ _ H). apply Qfloor_Z.
Qed.

(** ** [within_range] *)


Lemma any_map_false {A : Type} (f : A -> bool) (l : list A) :
  any (map f l) = false <-> forall c, In c l -> f c = false.
Proof.
  unfold any. induction l as [|x tl IH]; simpl.
  - split; [intros _ c [] | reflexivity].
  - rewrite orb_false_iff, IH. split.
    + intros [Hx Htl] c [<-|Hc]; auto.
    + intro H. split; [apply H; now left | intros c Hc; apply H; now right].
Qed.


Lemma range_test_false (dt : dtype) (lower upper : scalar) (l : list cell) :
  any (map (scalar_gt dt lower) l) || any (map (scalar_lt dt upper) l) = false
  <-> forall c, In c l -> out_of_range dt lower upper c = false.
Proof.
  rewrite orb_false_iff, !any_map_false. unfold out_of_range. split.
  - intros [H1 H2] c Hc. now rewrite H1, H2.
  - intro H. split; intros c Hc; specialize (H c Hc);
      apply orb_false_iff in H; tauto.
Qed.




Lemma within_range_pass df items :
  within_range df items = Return df <-> Forall (range_ok df) items.
Proof.
  induction items as [|[k [lo up]] rest IH]; simpl.
  - split; [constructor | reflexivity].
  - split.
    + intro H. apply bind_Return in H. destruct H as (s & Hs & H).
      destruct (any (map (scalar_gt (dtype_of s) lo) (values s))
                || any (map (scalar_lt (dtype_of s) up) (values s))) eqn:E;
        [discriminate|].
      constructor; [|now apply IH].
      exists s. split; [assumption|]. now apply range_test_false.
    + intro H. inversion H as [|? ? (s & Hs & Hok) Hrest]; subst.
      simpl in Hs, Hok. rewrite Hs. simpl.
      apply range_test_false in Hok. rewrite Hok. now apply IH.
Qed.








(** ** [within_set] *)

Lemma all_map_true {A : Type} (f : A -> bool) (l : list A) :
  all (map f l) = true <-> forall c, In c l -> f c = true.
Proof.
  unfold all. induction l as [|x tl IH]; simpl.
  - split; [intros _ c [] | reflexivity].
  - rewrite andb_true_iff, IH. split.
    + intros [Hx Htl] c [<-|Hc]; auto.
    + intro H. split; [apply H; now left | intros c Hc; apply H; now right].
Qed.

Lemma all_map_false {A : Type} (f : A -> bool) (l : list A) :
  all (map f l) = false <-> exists c, In c l /\ f c = false.
Proof.
  unfold all. induction l as [|x tl IH]; simpl.
  - split; [discriminate | intros (c & [] & _)].
  - rewrite andb_false_iff, IH. split.
    + intros [Hx|(c & Hc & E)]; [exists x | exists c]; auto.
    + intros (c & [<-|Hc] & E); [now left | right; eauto].
Qed.

Lemma loc_invert_isin (idx : list Z) (allowed s : list cell) :
  loc idx (invert (isin s allowed)) s
  = filter (fun p => negb (member allowed (snd p))) (combine idx s).
Proof.
  revert idx. induction s as [|c tl IH]; intros [|i idx]; simpl; try reflexivity.
  fold (member allowed c). rewrite <- IH.
  destruct (member allowed c); reflexivity.
Qed.

Lemma member_Num (allowed : list cell) (x : Q) :
  member allowed (Num x) = true <-> exists y, In (Num y) allowed /\ x == y.
Proof.
  unfold member. rewrite existsb_exists. split.
  - intros ([|t|y] & Hin & E); simpl in E; try discriminate.
    exists y. split; [assumption | now apply Qeq_bool_iff].
  - intros (y & Hin & E). exists (Num y). split; [assumption|].
    simpl. now apply Qeq_bool_iff.
Qed.

Lemma within_set_pass df items :
  within_set df items = Return df <-> Forall (set_ok df) items.
Proof.
  induction items as [|[k v] rest IH]; simpl.
  - split; [constructor | reflexivity].
  - split.
    + intro H. apply bind_Return in H. destruct H as (s & Hs & H).
      destruct (all (isin (values s) v)) eqn:E; [|discriminate].
      constructor; [|now apply IH].
      exists s. split; [assumption|]. now apply all_map_true.
    + intro H. inversion H as [|? ? (s & Hs & Hok) Hrest]; subst.
      simpl in Hs, Hok.
      assert (E : all (isin (values s) v) = true)
        by (apply all_map_true; exact Hok).
      rewrite Hs. simpl. rewrite E. now apply IH.
Qed.

Lemma within_set_first_bad df pre k allowed post s :
  Forall (set_ok df) pre ->
  getitem df k = Return s ->
  (exists c, In c (values s) /\ member allowed c = false) ->
  within_set df (pre ++ (k, allowed) :: post)
  = Raise (AssertionError (NotInSet (non_members df allowed s))).
Proof.
  intros Hpre Hs Hbad.
  induction Hpre as [|[k' v'] pre' (s' & Hs' & Hok) _ IH]; simpl.
  - assert (E : all (isin (values s) allowed) = false)
      by (apply all_map_false; exact Hbad).
    rewrite Hs. simpl. rewrite E. simpl.
    unfold non_members. now rewrite <- loc_invert_isin.
  - simpl in Hs', Hok.
    assert (E : all (isin (values s') v') = true)
      by (apply all_map_true; exact Hok).
    rewrite Hs'. simpl. now rewrite E.
Qed.

(** C7. [within_set] returns the table exactly when every entry of [items]
    names a column all of whose cells are members of the allowed
    collection.  At the first entry, in the order of [items], whose column
    holds a cell that is not a member it raises an [AssertionError] whose
    payload is the sub-series of the non-member cells of that column, each
    keyed by its row identifier; the entries after it play no part (they
    may even name columns the table does not have). *)
Theorem within_set_first_offender
        (df : DataFrame) (items : list (string * list cell)) :
  (within_set df items = Return df <-> Forall (set_ok df) items) /\
  (forall pre k allowed post s,
     items = pre ++ (k, allowed) :: post ->
     Forall (set_ok df) pre ->
     getitem df k = Return s ->
     (exists c, In c (values s) /\ member allowed c = false) ->
     within_set df items
     = Raise (AssertionError (NotInSet (non_members df allowed s))) /\
     (forall post', within_set df (pre ++ (k, allowed) :: post')
                    = within_set df items) /\
     (forall i c, In (i, c) (non_members df allowed s) <->
                  In (i, c) (combine (index df) (values s)) /\
                  member allowed c = false)).
Proof.
  split; [apply within_set_pass|].
  intros pre k allowed post s -> Hpre Hs Hbad.
  split; [now apply within_set_first_bad|].
  split.
  - intro post'. now rewrite !(within_set_first_bad df pre k allowed _ s).
  - intros i c. unfold non_members.
    now rewrite filter_In, negb_true_iff.
Qed.

Lemma within_set_first_offender_witness :
  let df := mkDataFrame 1%positive [10; 20; 30]%Z
              [("grade"%string, mkSeries object_ [Num 1; Num 4; Num 3]);
               ("year"%string, mkSeries int64 [Num 9; Num 9; Num 9])] in
  within_set df [("grade"%string, [Num 1; Num 2; Num 3]);
                 ("year"%string, [Num 8])]
  = Raise (AssertionError (NotInSet [(20%Z, Num 4)])).
Proof.
  intro df.
  apply (proj2 (within_set_first_offender df _)
           [] "grade"%string [Num 1; Num 2; Num 3]
           [("year"%string, [Num 8])]
           (mkSeries object_ [Num 1; Num 4; Num 3])).
  - reflexivity.
  - constructor.
  - reflexivity.
  - exists (Num 4). split; [simpl; auto | reflexivity].
Defined.


(** ** Looking columns up *)

Lemma lookup_Some_In k cols s : lookup k cols = Some s -> In (k, s) cols.
Proof.
  induction cols as [|[name s'] rest IH]; simpl; [discriminate|].
  destruct (String.eqb k name) eqn:E.
  - intros [= ->]. apply String.eqb_eq in E. subst. now left.
  - intro H. right. now apply IH.
Qed.

Lemma lookup_None k cols : lookup k cols = None <-> ~ In k (map fst cols).
Proof.
  induction cols as [|[name s'] rest IH]; simpl; [tauto|].
  destruct (String.eqb k name) eqn:E.
  - apply String.eqb_eq in E. subst. split; [discriminate | tauto].
  - apply String.eqb_neq in E. rewrite IH. split; [|tauto].
    intros H [H'|H']; [congruence | tauto].
Qed.

Lemma getitem_present df k :
  In k (keys df) -> exists s, getitem df k = Return s /\ In (k, s) (columns df).
Proof.
  intro H. unfold getitem.
  destruct (lookup k (columns df)) as [s|] eqn:E.
  - exists s. split; [reflexivity | now apply lookup_Some_In].
  - apply lookup_None in E. contradiction.
Qed.

Lemma getitem_absent df k :
  ~ In k (keys df) -> getitem df k = Raise (KeyError k).
Proof.
  intro H. unfold getitem. apply lookup_None in H. now rewrite H.
Qed.

Lemma getitem_Return_key df k s : getitem df k = Return s -> In k (keys df).
Proof.
  unfold getitem. destruct (lookup k (columns df)) eqn:E; [|discriminate].
  intros _. apply lookup_Some_In in E. unfold keys.
  apply in_map_iff. now exists (k, s0).
Qed.

Lemma getitem_Return_In df k s :
  getitem df k = Return s -> In (k, s) (columns df).
Proof.
  unfold getitem. destruct (lookup k (columns df)) eqn:E; [|discriminate].
  intros [= <-]. now apply lookup_Some_In.
Qed.

Lemma dict_keys_In k ks : In k (dict_keys ks) -> In k ks.
Proof.
  induction ks as [|k' tl IH]; simpl; [tauto|].
  intros [->|H]; [now left|]. apply filter_In in H. right. tauto.
Qed.

Lemma dict_keys_In_iff k ks : In k (dict_keys ks) <-> In k ks.
Proof.
  split; [apply dict_keys_In|].
  induction ks as [|k' tl IH]; simpl; [tauto|].
  intros [->|H]; [now left|].
  destruct (String.eqb_spec k k') as [->|Hne]; [now left|].
  right. apply filter_In. split; [now apply IH|].
  apply negb_true_iff. now apply String.eqb_neq.
Qed.

(** ** [is_monotonic] *)

Lemma adjacent_nil a b : ~ adjacent [] a b.
Proof. intros ([|? ?] & l2 & H); discriminate. Qed.

Lemma adjacent_one c a b : ~ adjacent [c] a b.
Proof. intros ([|? [|? ?]] & l2 & H); discriminate. Qed.

Lemma adjacent_cons c d s a b :
  adjacent (c :: d :: s) a b <-> (c = a /\ d = b) \/ adjacent (d :: s) a b.
Proof.
  split.
  - intros ([|e l1] & l2 & H); simpl in H.
    + injection H as -> -> _. now left.
    + injection H as -> H. right. now exists l1, l2.
  - intros [[-> ->]|(l1 & l2 & H)].
    + now exists [], s.
    + exists (c :: l1), l2. simpl. now rewrite H.
Qed.


Lemma ordered_short R s : (length s <= 1)%nat -> ordered R s.
Proof.
  destruct s as [|c [|d s]]; simpl; intros H a b Hadj.
  - now apply adjacent_nil in Hadj.
  - now apply adjacent_one in Hadj.
  - lia.
Qed.

Lemma ordered_cons R c d s :
  ordered R (c :: d :: s) <-> R c d /\ ordered R (d :: s).
Proof.
  unfold ordered. split.
  - intro H. split.
    + apply H. apply adjacent_cons. now left.
    + intros a b Hadj. apply H. apply adjacent_cons. now right.
  - intros [Hcd Hrest] a b Hadj. apply adjacent_cons in Hadj.
    destruct Hadj as [[<- <-]|Hadj]; auto.
Qed.

Lemma lone_value_long c d s : lone_value (c :: d :: s).
Proof. intros x H. discriminate H. Qed.

Lemma lone_value_one c : lone_value [c] <-> isnull c = false.
Proof.
  split.
  - intro H. now apply H.
  - intros H x [= <-]. exact H.
Qed.

Lemma cell_le_iff a b : cell_le a b = true <-> cell_leq a b.
Proof.
  destruct a as [|[|]|x], b as [|[|]|y]; simpl;
    try (split; [discriminate | tauto]); try tauto.
  apply Qle_bool_iff.
Qed.

Lemma increasing_from_iff c s :
  increasing_from c s = true <-> ordered cell_leq (c :: s).
Proof.
  revert c. induction s as [|d s IH]; intro c; simpl.
  - split; [intros _; apply ordered_short; simpl; lia | reflexivity].
  - now rewrite andb_true_iff, ordered_cons, IH, cell_le_iff.
Qed.

Lemma decreasing_from_iff c s :
  decreasing_from c s = true <-> ordered (fun a b => cell_leq b a) (c :: s).
Proof.
  revert c. induction s as [|d s IH]; intro c; simpl.
  - split; [intros _; apply ordered_short; simpl; lia | reflexivity].
  - unfold cell_ge. now rewrite andb_true_iff, ordered_cons, IH, cell_le_iff.
Qed.

Lemma is_monotonic_increasing_iff s :
  is_monotonic_increasing s = true <-> non_decreasing s.
Proof.
  unfold non_decreasing. destruct s as [|c [|d s]].
  - split; [|reflexivity]. intros _.
    split; [intros x H; discriminate H | apply ordered_short; simpl; lia].
  - simpl. rewrite negb_true_iff, lone_value_one. split; [|tauto].
    intro H. split; [exact H | apply ordered_short; simpl; lia].
  - change (is_monotonic_increasing (c :: d :: s))
      with (increasing_from c (d :: s)).
    rewrite increasing_from_iff. split; [|tauto].
    intro H. split; [apply lone_value_long | exact H].
Qed.

Lemma is_monotonic_decreasing_iff s :
  is_monotonic_decreasing s = true <-> non_increasing s.
Proof.
  unfold non_increasing. destruct s as [|c [|d s]].
  - split; [|reflexivity]. intros _.
    split; [intros x H; discriminate H | apply ordered_short; simpl; lia].
  - simpl. rewrite negb_true_iff, lone_value_one. split; [|tauto].
    intro H. split; [exact H | apply ordered_short; simpl; lia].
  - change (is_monotonic_decreasing (c :: d :: s))
      with (decreasing_from c (d :: s)).
    rewrite decreasing_from_iff. split; [|tauto].
    intro H. split; [apply lone_value_long | exact H].
Qed.

(** *** The differences *)

(** The differences that survive [dropna] are those that are numbers or
    infinities; the test has to hold of each of them. *)
Lemma diffs_all_iff (f : cell -> bool) (s : Series) :
  all (map f (dropna (diff s))) = true <->
  forall a b, adjacent (values s) a b ->
    isnull (cell_sub (dtype_of s) b a) = true \/
    f (cell_sub (dtype_of s) b a) = true.
Proof.
  unfold diff. destruct (values s) as [|p l]; simpl.
  - split; [intros _ a b H; now apply adjacent_nil in H | reflexivity].
  - generalize (dtype_of s). intro dt.
    revert p. induction l as [|c l IH]; intro p; simpl.
    + split; [intros _ a b H; now apply adjacent_one in H | reflexivity].
    + destruct (isnull (cell_sub dt c p)) eqn:E; simpl.
      * rewrite IH. split; intros H a b Hadj.
        -- apply adjacent_cons in Hadj. destruct Hadj as [[<- <-]|Hadj];
             [now left | auto].
        -- apply H. apply adjacent_cons. now right.
      * rewrite andb_true_iff, IH. split.
        -- intros [Hf H] a b Hadj. apply adjacent_cons in Hadj.
           destruct Hadj as [[<- <-]|Hadj]; [now right | auto].
        -- intro H. split.
           ++ destruct (H p c) as [H'|H']; [apply adjacent_cons; now left | |];
                congruence.
           ++ intros a b Hadj. apply H. apply adjacent_cons. now right.
Qed.

(** The difference of two numbers: the exact one, unless the column is
    [int64] and the difference does not fit. *)
Lemma cell_sub_Num (dt : dtype) (x y : Q) :
  (dt = int64 -> exists zx zy, x == inject_Z zx /\ y == inject_Z zy /\
                               int64_range (zy - zx)) ->
  exists d, cell_sub dt (Num y) (Num x) = Num d /\ d == y - x.
Proof.
  intro H. destruct dt; simpl; try (eexists; split; reflexivity).
  destruct (H eq_refl) as (zx & zy & Hx & Hy & Hr).
  eexists. split; [reflexivity|].
  rewrite (Qfloor_inject_Z x zx Hx), (Qfloor_inject_Z y zy Hy).
  rewrite (int64_wrap_fits _ Hr), Hx, Hy.
  unfold Zminus. rewrite inject_Z_plus, inject_Z_opp. reflexivity.
Qed.


Lemma gt_zero_Num d : gt_zero (Num d) = true <-> 0 < d.
Proof. unfold gt_zero. apply cell_lt_Num_iff. Qed.

Lemma lt_zero_Num d : lt_zero (Num d) = true <-> d < 0.
Proof. unfold lt_zero. apply cell_lt_Num_iff. Qed.

Ltac break_hyps :=
  repeat match goal with
  | H : _ \/ _ |- _ => destruct H
  | H : _ /\ _ |- _ => destruct H
  | H : exists _, _ |- _ => destruct H
  end.

Ltac extreme_cells :=
  unfold gt_zero, lt_zero; simpl; split; intro;
  solve [ break_hyps; first [discriminate | contradiction | congruence]
        | auto
        | right; right; left; exact I
        | right; right; right; eauto ].

Lemma pair_positive_iff (dt : dtype) (a b : cell) :
  fits dt a b ->
  (isnull (cell_sub dt b a) = true \/ gt_zero (cell_sub dt b a) = true) <->
  isnull a = true \/ isnull b = true \/ rises a b.
Proof.
  intro Hf. unfold rises.
  destruct a as [|[|]|x], b as [|[|]|y]; try extreme_cells.
  destruct (cell_sub_Num dt x y) as (d & -> & Hd).
  { intro E. now apply (Hf E). }
  simpl isnull. rewrite gt_zero_Num. simpl. split.
  - intros [H|H]; [discriminate|]. right. right. left. qlra.
  - intros [H|[H|[H|(t & H1 & _)]]]; try discriminate. right. qlra.
Qed.

Lemma pair_negative_iff (dt : dtype) (a b : cell) :
  fits dt a b ->
  (isnull (cell_sub dt b a) = true \/ lt_zero (cell_sub dt b a) = true) <->
  isnull a = true \/ isnull b = true \/ rises b a.
Proof.
  intro Hf. unfold rises.
  destruct a as [|[|]|x], b as [|[|]|y]; try extreme_cells.
  destruct (cell_sub_Num dt x y) as (d & -> & Hd).
  { intro E. now apply (Hf E). }
  simpl isnull. rewrite lt_zero_Num. simpl. split.
  - intros [H|H]; [discriminate|]. right. right. left. qlra.
  - intros [H|[H|[H|(t & H1 & _)]]]; try discriminate. right. qlra.
Qed.

Lemma diffs_fit_pair s a b :
  diffs_fit s -> adjacent (values s) a b -> fits (dtype_of s) a b.
Proof.
  intros H Hadj E x y -> ->. now apply H.
Qed.

Lemma diffs_positive_iff s :
  diffs_fit s ->
  diffs_positive s = true <->
  forall a b, adjacent (values s) a b ->
              isnull a = true \/ isnull b = true \/ rises a b.
Proof.
  intro Hf. unfold diffs_positive. rewrite diffs_all_iff.
  split; intros H a b Hadj;
    apply (pair_positive_iff _ _ _ (diffs_fit_pair s a b Hf Hadj));
    now apply H.
Qed.

Lemma diffs_negative_iff s :
  diffs_fit s ->
  diffs_negative s = true <->
  forall a b, adjacent (values s) a b ->
              isnull a = true \/ isnull b = true \/ rises b a.
Proof.
  intro Hf. unfold diffs_negative. rewrite diffs_all_iff.
  split; intros H a b Hadj;
    apply (pair_negative_iff _ _ _ (diffs_fit_pair s a b Hf Hadj));
    now apply H.
Qed.

(** What [monotonic_good] computes, in terms of the two index attributes
    and the two tests on the differences. *)
Lemma monotonic_good_eq s increasing strict :
  monotonic_good s increasing strict =
  match increasing with
  | Some true =>
      is_monotonic_increasing (values s) && (negb strict || diffs_positive s)
  | None =>
      (is_monotonic_increasing (values s) || is_monotonic_decreasing (values s))
      && (negb strict || (diffs_positive s || diffs_negative s))
  | Some false =>
      is_monotonic_decreasing (values s) && (negb strict || diffs_negative s)
  end.
Proof.
  unfold monotonic_good, diffs_positive, diffs_negative.
  destruct increasing as [[|]|], strict; simpl;
    rewrite ?andb_true_r; reflexivity.
Qed.



Lemma monotonic_good_short s increasing strict :
  (length (values s) <= 1)%nat -> (forall c, In c (values s) -> isnull c = false) ->
  monotonic_good s increasing strict = true.
Proof.
  destruct s as [dt [|c [|d l]]]; simpl; intros Hlen Hn; [| |lia].
  - destruct increasing as [[|]|], strict; reflexivity.
  - specialize (Hn c (or_introl eq_refl)).
    unfold monotonic_good, diff. simpl. rewrite Hn.
    destruct increasing as [[|]|], strict; reflexivity.
Qed.

Lemma is_monotonic_loop_short df items :
  wf_df df -> (length (index df) <= 1)%nat ->
  (forall name s, In (name, s) (columns df) -> no_missing s) ->
  (forall k, In k (map fst items) -> In k (keys df)) ->
  is_monotonic_loop df items = Return df.
Proof.
  intros Hwf Hlen Hnm.
  induction items as [|[col [inc st]] rest IH]; simpl; intro Hk; [reflexivity|].
  destruct (getitem_present df col) as (s & Hs & Hin); [apply Hk; now left|].
  rewrite Hs. simpl. rewrite monotonic_good_short.
  - simpl. apply IH. intros k H. apply Hk. now right.
  - unfold wf_df in Hwf. rewrite Forall_forall in Hwf.
    pose proof (Hwf _ Hin) as E. simpl in E. rewrite E. exact Hlen.
  - exact (Hnm _ _ Hin).
Qed.

(** C3, as stated, fails on a single row that holds a missing cell: the
    index attributes are false of one missing element, in both
    directions, and [is_monotonic] raises. *)
Lemma is_monotonic_lone_nan_counterexample :
  ~ (forall df increasing strict,
       wf_df df -> (length (index df) <= 1)%nat ->
       is_monotonic df None increasing strict = Return df).
Proof.
  intro H. specialize (H lone_nan_table None false).
  assert (E : is_monotonic lone_nan_table None None false
              = Raise (AssertionError NoArgs)) by reflexivity.
  rewrite H in E; [discriminate E | repeat constructor | simpl; lia].
Qed.

(** C3, amended. On a table with no row, and on a table with a single row
    none of whose cells is missing, [is_monotonic] returns the table,
    whatever the direction ([increasing] true, false or [None]) and
    whatever the strictness: when [items] is left out, with the one
    setting for all columns, and when [items] gives each column it names
    (a column of the table) a setting of its own. *)
Theorem is_monotonic_vacuous (df : DataFrame) :
  wf_df df -> (length (index df) <= 1)%nat ->
  (forall name s, In (name, s) (columns df) -> no_missing s) ->
  (forall increasing strict,
     is_monotonic df None increasing strict = Return df) /\
  (forall items increasing strict,
     (forall k, In k (map fst items) -> In k (keys df)) ->
     is_monotonic df (Some items) increasing strict = Return df).
Proof.
  intros Hwf Hlen Hnm. split.
  - intros inc st. unfold is_monotonic.
    apply is_monotonic_loop_short; try assumption.
    intros k Hk. rewrite map_map in Hk. simpl in Hk. rewrite map_id in Hk.
    now apply dict_keys_In.
  - intros items inc st Hk. unfold is_monotonic.
    now apply is_monotonic_loop_short.
Qed.

Lemma is_monotonic_vacuous_witness :
  let df := mkDataFrame 1%positive [5%Z]
              [("a"%string, mkSeries int64 [Num 2]);
               ("b"%string, mkSeries float64 [Inf false])] in
  (forall increasing strict,
     is_monotonic df None increasing strict = Return df) /\
  (forall items increasing strict,
     (forall k, In k (map fst items) -> In k (keys df)) ->
     is_monotonic df (Some items) increasing strict = Return df).
Proof.
  intro df. apply (is_monotonic_vacuous df).
  - repeat constructor.
  - simpl. lia.
  - intros name s [[= <- <-]|[[= <- <-]|[]]] c [<-|[]]; reflexivity.
Defined.









Lemma cell_below_leq a b : cell_below a b -> cell_leq a b.
Proof.
  destruct a as [|[|]|x], b as [|[|]|y]; simpl; try tauto.
  apply Qlt_le_weak.
Qed.








(** ** [within_n_std] *)

(** *** The comparison with a square root *)

Lemma sq_nonneg (x : Q) : 0 <= sq x.
Proof. unfold sq. qnra. Qed.

Lemma Q2R_sq (x : Q) : Q2R (sq x) = (Q2R x * Q2R x)%R.
Proof. unfold sq. apply Q2R_mult. Qed.

Lemma Q2R_zero : Q2R 0 = 0%R.
Proof. unfold Q2R. simpl. rlra. Qed.

(** [Qabs_lt_mul_sqrt d n v] decides [|d| < n * sqrt v] over the reals. *)
Lemma Qabs_lt_mul_sqrt_real (d n v : Q) :
  0 <= v ->
  Qabs_lt_mul_sqrt d n v = true <->
  (Rabs (Q2R d) < Q2R n * sqrt (Q2R v))%R.
Proof.
  intro Hv. apply Qle_Rle in Hv. rewrite Q2R_zero in Hv.
  unfold Qabs_lt_mul_sqrt. rewrite andb_true_iff, !Qlt_bool_iff.
  pose proof (sqrt_pos (Q2R v)) as Hs.
  pose proof (sqrt_sqrt (Q2R v) Hv) as Hss.
  pose proof (Rabs_pos (Q2R d)) as Ha.
  assert (Hsq : (Rabs (Q2R d) * Rabs (Q2R d) = Q2R d * Q2R d)%R).
  { rewrite <- Rabs_mult. apply Rabs_right. rnra. }
  split.
  - intros [Hn Hlt]. apply Qlt_Rlt in Hn, Hlt.
    rewrite Q2R_zero in Hn. rewrite Q2R_mult, !Q2R_sq in Hlt.
    set (D := Rabs (Q2R d)) in *. set (N := Q2R n) in *.
    set (S := sqrt (Q2R v)) in *.
    assert (HNS : (0 <= N * S)%R) by rnra.
    destruct (Rlt_le_dec D (N * S)) as [|Hge]; [assumption|].
    exfalso.
    assert ((N * S) * (N * S) <= D * D)%R by rnra.
    assert ((N * S) * (N * S) = N * N * Q2R v)%R by (rewrite <- Hss; ring).
    rlra.
  - intro Hlt.
    set (D := Rabs (Q2R d)) in *. set (N := Q2R n) in *.
    set (S := sqrt (Q2R v)) in *.
    assert (HN : (0 < N)%R).
    { destruct (Rlt_le_dec 0 N) as [|Hle]; [assumption|]. exfalso.
      assert (N * S <= 0)%R by rnra. rlra. }
    split.
    + apply Rlt_Qlt. rewrite Q2R_zero. exact HN.
    + apply Rlt_Qlt. rewrite Q2R_mult, !Q2R_sq. fold N.
      assert (D * D < (N * S) * (N * S))%R by rnra.
      assert ((N * S) * (N * S) = N * N * Q2R v)%R by (rewrite <- Hss; ring).
      rlra.
Qed.

(** *** Mean and variance *)

Lemma Qsum_sq_nonneg (f : Q -> Q) (l : list Q) :
  0 <= Qsum (map (fun x => sq (f x)) l).
Proof.
  induction l as [|x tl IH]; simpl; [qlra|].
  pose proof (sq_nonneg (f x)). qlra.
Qed.

Lemma Qlen_cons (x : Q) (l : list Q) : Qlen (x :: l) == Qlen l + 1.
Proof.
  unfold Qlen. simpl length. rewrite Nat2Z.inj_succ, <- Z.add_1_r.
  now rewrite inject_Z_plus.
Qed.

Lemma Qlen_nonneg (l : list Q) : 0 <= Qlen l.
Proof.
  unfold Qlen. change 0 with (inject_Z 0). rewrite <- Zle_Qle. lia.
Qed.

Lemma Qlen_two (l : list Q) : (2 <= length l)%nat -> 2 <= Qlen l.
Proof.
  intro H. unfold Qlen. change 2 with (inject_Z 2). rewrite <- Zle_Qle. lia.
Qed.

Lemma var_nonneg (s : list cell) (v : Q) : var s = Some v -> 0 <= v.
Proof.
  unfold var. destruct (has_inf s); [discriminate|]. simpl.
  destruct (length (present s) <? 2)%nat eqn:E; [discriminate|].
  intros [= <-]. apply Nat.ltb_ge in E. apply Qlen_two in E.
  unfold Qdiv. apply Qmult_le_0_compat.
  - apply Qsum_sq_nonneg with (f := fun x => x - _).
  - apply Qinv_le_0_compat. qlra.
Qed.

(** *** Inliers *)

Lemma abs_dev_lt_table_map (cols : list (string * Series)) (n : Q) :
  abs_dev_lt_table cols (map (fun c => mean (values (snd c))) cols) n
                   (map (fun c => var (values (snd c))) cols)
  = map (fun c => (fst c,
                   map (fun x => abs_dev_lt x (mean (values (snd c))) n
                                            (var (values (snd c))))
                       (values (snd c))))
        cols.
Proof.
  induction cols as [|[name s] rest IH]; simpl; [reflexivity | now rewrite IH].
Qed.

Lemma within_n_std_eq (df : DataFrame) (n : Q) :
  within_n_std df n =
  if np_all (inlier_mask df n) then Return df
  else Raise (AssertionError
                (Locations (bad_locations (index df)
                                          (invert_table (inlier_mask df n))))).
Proof.
  unfold within_n_std, df_mean, df_std, inlier_mask.
  rewrite abs_dev_lt_table_map.
  now destruct (np_all _).
Qed.

Lemma abs_dev_lt_inlier (s : list cell) (n : Q) (c : cell) :
  abs_dev_lt c (mean s) n (var s) = true <-> inlier s n c.
Proof.
  unfold inlier, abs_dev_lt, within_n_sigma.
  destruct c as [|t|x];
    try (split; [discriminate | intros (? & ? & ? & ? & _); discriminate]).
  destruct (mean s) as [mu|];
    [|split; [discriminate | intros (? & ? & ? & _ & ? & _); discriminate]].
  destruct (var s) as [v|] eqn:Hv;
    [|split; [discriminate | intros (? & ? & ? & _ & _ & ? & _); discriminate]].
  rewrite (Qabs_lt_mul_sqrt_real _ _ _ (var_nonneg _ _ Hv)), Q2R_minus.
  split.
  - intro H. now exists x, mu, v.
  - intros (x' & mu' & v' & [= <-] & [= <-] & [= <-] & H). exact H.
Qed.

Lemma np_all_inlier_mask (df : DataFrame) (n : Q) :
  np_all (inlier_mask df n) = true <->
  forall name s c, In (name, s) (columns df) -> In c (values s) ->
                   inlier (values s) n c.
Proof.
  unfold np_all, inlier_mask. rewrite map_map. simpl.
  rewrite all_map_true. split.
  - intros H name s c Hs Hc. specialize (H _ Hs). simpl in H.
    rewrite all_map_true in H. apply abs_dev_lt_inlier. now apply H.
  - intros H [name s] Hs. simpl. apply all_map_true. intros c Hc.
    apply abs_dev_lt_inlier. now apply (H name).
Qed.

Lemma at_n_sigma_outside (x mu n v : Q) :
  at_n_sigma x mu n v -> ~ within_n_sigma x mu n v.
Proof.
  unfold at_n_sigma, within_n_sigma. intros H Hlt.
  pose proof (sqrt_pos (Q2R v)) as Hs.
  set (S := sqrt (Q2R v)) in *. set (N := Q2R n) in *.
  assert (HN : (0 < N * S)%R).
  { pose proof (Rabs_pos (Q2R x - Q2R mu)). rlra. }
  destruct H as [H|H]; rewrite H in Hlt.
  - replace (Q2R mu + N * S - Q2R mu)%R with (N * S)%R in Hlt by ring.
    rewrite Rabs_right in Hlt; rlra.
  - replace (Q2R mu - N * S - Q2R mu)%R with (- (N * S))%R in Hlt by ring.
    rewrite Rabs_Ropp, Rabs_right in Hlt; rlra.
Qed.

Lemma Q2R_inject_Z (z : Z) : Q2R (inject_Z z) = IZR z.
Proof. unfold Q2R. simpl. field. Qed.

(** C1, as stated, fails with the default [n = 3]: the first cell of the
    column, 10, lies exactly at mean + 3 * std = 1 + 3 * 3, and yet
    [within_n_std] raises and reports that very cell. *)
Lemma within_n_std_boundary_counterexample :
  (exists mu v,
     mean (values boundary_column) = Some mu /\
     var (values boundary_column) = Some v /\
     Q2R mu = 1%R /\ sqrt (Q2R v) = 3%R /\
     at_n_sigma 10 mu default_n v) /\
  within_n_std boundary_table default_n
  = Raise (AssertionError (Locations [(0%Z, "x"%string)])).
Proof.
  split; [|vm_compute; reflexivity].
  destruct (mean (values boundary_column)) as [mu|] eqn:Hm;
    [|vm_compute in Hm; discriminate].
  destruct (var (values boundary_column)) as [v|] eqn:Hv;
    [|vm_compute in Hv; discriminate].
  assert (Emu : mu == inject_Z 1).
  { vm_compute in Hm. injection Hm as <-. reflexivity. }
  assert (Ev : v == inject_Z 9).
  { vm_compute in Hv. injection Hv as <-. reflexivity. }
  apply Qeq_eqR in Emu, Ev. rewrite Q2R_inject_Z in Emu, Ev.
  assert (Hs : sqrt (Q2R v) = 3%R).
  { rewrite Ev. apply sqrt_lem_1; rlra. }
  exists mu, v. repeat split; try assumption.
  left. rewrite Emu, Hs.
  change 10 with (inject_Z 10). change default_n with (inject_Z 3).
  rewrite !Q2R_inject_Z. rlra.
Qed.

(** *** Columns of integers *)

Lemma present_integers (zs : list Z) :
  present (map (fun z => Num (inject_Z z)) zs) = map inject_Z zs /\
  has_inf (map (fun z => Num (inject_Z z)) zs) = false.
Proof.
  induction zs as [|z zs [IH1 IH2]]; simpl; [now split|].
  split; [now rewrite IH1 | exact IH2].
Qed.

Lemma Qsum_integers (f : Z -> Z) (g : Q -> Q) (zs : list Z) :
  (forall z, g (inject_Z z) == inject_Z (f z)) ->
  Qsum (map g (map inject_Z zs)) == inject_Z (Zsum (map f zs)).
Proof.
  intro H. induction zs as [|z zs IH]; simpl; [reflexivity|].
  rewrite H, IH, inject_Z_plus. reflexivity.
Qed.

Lemma Qlen_integers (zs : list Z) :
  Qlen (map inject_Z zs) = inject_Z (Z.of_nat (length zs)).
Proof. unfold Qlen. now rewrite length_map. Qed.

(** With an integer mean [mu] and an integer deviation [sigma] the test
    of one cell is a comparison of integers. *)
Lemma abs_dev_lt_integers (zs : list Z) (mu sigma k z : Z) (n : Q) :
  (2 <= length zs)%nat ->
  Zsum zs = (Z.of_nat (length zs) * mu)%Z ->
  Zsum (map (fun z : Z => ((z - mu) ^ 2)%Z) zs)
  = ((Z.of_nat (length zs) - 1) * sigma ^ 2)%Z ->
  (0 <= sigma)%Z -> n == inject_Z k ->
  let s := map (fun z => Num (inject_Z z)) zs in
  abs_dev_lt (Num (inject_Z z)) (mean s) n (var s) = true <->
  (Z.abs (z - mu) < k * sigma)%Z.
Proof.
  intros Hlen Hmu Hss Hsig Hn s.
  destruct (present_integers zs) as [Hp Hi]. fold s in Hp, Hi.
  set (N := inject_Z (Z.of_nat (length zs))).
  assert (HN : 2 <= N).
  { unfold N. change 2 with (inject_Z 2). rewrite <- Zle_Qle. lia. }
  assert (Em : Qsum (map inject_Z zs) / Qlen (map inject_Z zs) == inject_Z mu).
  { rewrite Qlen_integers. fold N.
    rewrite <- (map_id (map inject_Z zs)).
    rewrite (Qsum_integers (fun z => z) (fun q => q)) by reflexivity.
    rewrite map_id, Hmu, inject_Z_mult. fold N. field. qlra. }
  assert (Ev : Qsum (map (fun x => sq (x - Qsum (map inject_Z zs)
                                             / Qlen (map inject_Z zs)))
                        (map inject_Z zs))
               / (Qlen (map inject_Z zs) - 1) == inject_Z (sigma ^ 2)).
  { rewrite (Qsum_integers (fun z : Z => ((z - mu) ^ 2)%Z)).
    - rewrite Hss, Qlen_integers. fold N.
      rewrite inject_Z_mult. unfold Zminus.
      rewrite inject_Z_plus. fold N. simpl (inject_Z (- (1))). field. qlra.
    - intro x. unfold sq. rewrite Em. unfold Zminus.
      rewrite Z.pow_2_r, inject_Z_mult, inject_Z_plus, inject_Z_opp.
      unfold Qminus. reflexivity. }
  unfold mean, var, abs_dev_lt. rewrite Hi, Hp. simpl orb.
  destruct (map inject_Z zs) as [|q l] eqn:El.
  { destruct zs; [simpl in Hlen; lia | discriminate El]. }
  rewrite <- El in *.
  assert (Hl2 : (length (map inject_Z zs) <? 2)%nat = false).
  { apply Nat.ltb_ge. now rewrite length_map. }
  rewrite Hl2.
  unfold Qabs_lt_mul_sqrt. rewrite andb_true_iff, !Qlt_bool_iff.
  unfold sq. rewrite Ev, Em, Hn.
  rewrite Z.pow_2_r, inject_Z_mult.
  set (d := (z - mu)%Z).
  assert (Ed : inject_Z z - inject_Z mu == inject_Z d).
  { unfold d, Zminus. rewrite inject_Z_plus, inject_Z_opp. reflexivity. }
  rewrite Ed, <- !inject_Z_mult.
  change 0 with (inject_Z 0). rewrite <- !Zlt_Qlt.
  split.
  - intros [Hk Hlt]. nia.
  - intro Hlt. split; nia.
Qed.

(** C1, amended. On a table whose columns are computed without rounding
    (integer cells with an integer mean and an integer standard deviation,
    an integer [n], sums within 2^53) a cell is an inlier exactly when it
    is strictly within [n] standard deviations of the mean of its column;
    a value that lies exactly at mean + n * std or at mean - n * std is
    therefore not an inlier.  With the integer mean [mu], the integer
    deviation [sigma] and [n] the integer [k], the cell [z] is an inlier
    exactly when [|z - mu| < k * sigma].  [within_n_std] returns the
    table exactly when every cell of every column is an inlier, and raises
    an [AssertionError] carrying the locations of the other cells as soon
    as one cell is not. *)
Theorem within_n_std_strict_bound (df : DataFrame) (n : Q) :
  exact_table df n ->
  (forall s x mu v,
     mean s = Some mu -> var s = Some v ->
     (inlier s n (Num x) <-> within_n_sigma x mu n v) /\
     (at_n_sigma x mu n v -> ~ inlier s n (Num x))) /\
  (forall zs mu sigma k z,
     (2 <= length zs)%nat ->
     Zsum zs = (Z.of_nat (length zs) * mu)%Z ->
     Zsum (map (fun z : Z => ((z - mu) ^ 2)%Z) zs)
     = ((Z.of_nat (length zs) - 1) * sigma ^ 2)%Z ->
     (0 <= sigma)%Z -> n == inject_Z k ->
     (inlier (map (fun z => Num (inject_Z z)) zs) n (Num (inject_Z z)) <->
      (Z.abs (z - mu) < k * sigma)%Z)) /\
  (within_n_std df n = Return df <->
   forall name s c, In (name, s) (columns df) -> In c (values s) ->
                    inlier (values s) n c) /\
  (within_n_std df n <> Return df ->
   within_n_std df n
   = Raise (AssertionError
              (Locations (bad_locations (index df)
                                        (invert_table (inlier_mask df n)))))).
Proof.
  intros _. split; [|split; [|split]].
  - intros s x mu v Hm Hv.
    assert (E : inlier s n (Num x) <-> within_n_sigma x mu n v).
    { split.
      - intros (x' & mu' & v' & [= <-] & Hm' & Hv' & H). congruence.
      - intro H. now exists x, mu, v. }
    split; [exact E|]. intros Hat Hin. apply E in Hin.
    now apply at_n_sigma_outside in Hat.
  - intros zs mu sigma k z Hlen Hmu Hss Hsig Hn.
    rewrite <- abs_dev_lt_inlier.
    now apply abs_dev_lt_integers.
  - rewrite within_n_std_eq, <- np_all_inlier_mask.
    destruct (np_all (inlier_mask df n)); split; congruence.
  - rewrite within_n_std_eq.
    destruct (np_all (inlier_mask df n)); congruence.
Qed.

Lemma boundary_table_exact : exact_table boundary_table default_n.
Proof.
  intros name s [[= <- <-]|[]].
  exists [10; 1; 0; 0; 0; 0; 0; 0; 0; 0; 0]%Z, 1%Z, 3%Z, 3%Z.
  repeat split; try reflexivity; simpl; lia.
Qed.

Lemma within_n_std_strict_bound_witness :
  within_n_std boundary_table default_n
  = Raise (AssertionError
             (Locations (bad_locations (index boundary_table)
                           (invert_table
                              (inlier_mask boundary_table default_n))))).
Proof.
  apply (proj2 (proj2 (proj2 (within_n_std_strict_bound
                                boundary_table default_n
                                boundary_table_exact)))).
  vm_compute. discriminate.
Defined.


(** * Further properties of the checks *)

(** ** [none_missing] *)

Lemma not_found_nil df ks :
  not_found df ks = [] <-> forall k, In k ks -> In k (keys df).
Proof.
  unfold not_found. induction ks as [|k rest IH]; simpl.
  - split; [intros _ k [] | reflexivity].
  - destruct (lookup k (columns df)) as [s|] eqn:E.
    + rewrite IH. split.
      * intros H k' [<-|Hk']; [|now apply H].
        apply lookup_Some_In in E. apply in_map_iff. now exists (k, s).
      * intros H k' Hk'. apply H. now right.
    + split; [discriminate|]. intro H. apply lookup_None in E.
      exfalso. apply E. apply (H k). now left.
Qed.




Lemma take_Return df ks sub :
  take df ks = Return sub ->
  (forall k, In k ks -> exists s, getitem df k = Return s /\ In (k, s) sub) /\
  (forall c, In c sub -> In (fst c) ks /\ getitem df (fst c) = Return (snd c)).
Proof.
  revert sub. induction ks as [|k rest IH]; simpl; intros sub H.
  - injection H as <-. split; [intros k [] | intros c []].
  - apply bind_Return in H. destruct H as (s & Hs & H).
    apply bind_Return in H. destruct H as (tl & Htl & H).
    injection H as <-. destruct (IH _ Htl) as [IH1 IH2]. split.
    + intros k' [<-|Hk'].
      * exists s. split; [assumption | now left].
      * destruct (IH1 _ Hk') as (s' & Hs' & Hin). exists s'.
        split; [assumption | now right].
    + intros c [<-|Hc]; simpl.
      * split; [now left | assumption].
      * destruct (IH2 _ Hc). split; [now right | assumption].
Qed.

Lemma take_present df ks :
  (forall k, In k ks -> In k (keys df)) -> exists sub, take df ks = Return sub.
Proof.
  induction ks as [|k rest IH]; simpl; intro H; [eauto|].
  destruct (getitem_present df k) as (s & Hs & _); [apply H; now left|].
  destruct IH as (tl & Htl); [intros k' Hk'; apply H; now right|].
  rewrite Hs, Htl. simpl. eauto.
Qed.

Lemma getitems_Return df ks sub :
  getitems df ks = Return sub ->
  (forall k, In k ks -> exists s, getitem df k = Return s /\ In (k, s) sub) /\
  (forall c, In c sub -> In (fst c) ks /\ getitem df (fst c) = Return (snd c)).
Proof.
  unfold getitems. destruct (not_found df ks); [apply take_Return | discriminate].
Qed.

Lemma getitems_present df ks :
  (forall k, In k ks -> In k (keys df)) ->
  exists sub, getitems df ks = Return sub.
Proof.
  intro H. unfold getitems. rewrite (proj2 (not_found_nil df ks) H).
  now apply take_present.
Qed.


Lemma any_any_isnull_false sub :
  any_any (isnull_table sub) = false <->
  forall c, In c sub -> no_missing (snd c).
Proof.
  unfold any_any, isnull_table, no_missing. rewrite map_map. simpl.
  rewrite any_map_false. split.
  - intros H c Hc x Hx. specialize (H c Hc). rewrite any_map_false in H. auto.
  - intros H c Hc. apply any_map_false. now apply H.
Qed.

Lemma none_missing_Some_pass df cols :
  none_missing df (Some cols) = Return df <->
  forall k, In k cols -> exists s, getitem df k = Return s /\ no_missing s.
Proof.
  unfold none_missing. split.
  - intros H. apply bind_Return in H. destruct H as (sub & Hsub & H).
    destruct (any_any (isnull_table sub)) eqn:E; [discriminate|].
    rewrite any_any_isnull_false in E.
    intros k Hk. destruct (getitems_Return _ _ _ Hsub) as [H1 _].
    destruct (H1 k Hk) as (s & Hs & Hin). exists s. split; [assumption|].
    exact (E _ Hin).
  - intro H.
    destruct (getitems_present df cols) as (sub & Hsub).
    { intros k Hk. destruct (H k Hk) as (s & Hs & _).
      eapply getitem_Return_key; eauto. }
    rewrite Hsub. simpl.
    assert (E : any_any (isnull_table sub) = false).
    { apply any_any_isnull_false. intros c Hc.
      destruct (getitems_Return _ _ _ Hsub) as [_ H2].
      destruct (H2 c Hc) as [Hk Hs].
      destruct (H _ Hk) as (s & Hs' & Hn).
      rewrite Hs in Hs'. injection Hs' as <-. exact Hn. }
    now rewrite E.
Qed.

Lemma none_missing_None_pass df :
  none_missing df None = Return df <->
  forall k s, getitem df k = Return s -> no_missing s.
Proof.
  change (none_missing df None) with (none_missing df (Some (keys df))).
  rewrite none_missing_Some_pass. split.
  - intros H k s Hs.
    destruct (H k (getitem_Return_key _ _ _ Hs)) as (s' & Hs' & Hn).
    rewrite Hs in Hs'. injection Hs' as <-. exact Hn.
  - intros H k Hk. destruct (getitem_present df k Hk) as (s & Hs & _).
    exists s. split; [assumption | now apply (H k)].
Qed.

(** X1. [none_missing] returns the table exactly when every column it is
    asked to look at is a column of the table without a missing cell: the
    columns named by [columns], or every column when [columns] is left
    out.  Missing cells in other columns do not matter.  When all the
    columns asked for are there and one holds a missing cell it raises an
    [AssertionError]. *)
Theorem none_missing_pass (df : DataFrame) :
  (forall cols,
     none_missing df (Some cols) = Return df <->
     forall k, In k cols -> exists s, getitem df k = Return s /\ no_missing s) /\
  (none_missing df None = Return df <->
   forall k s, getitem df k = Return s -> no_missing s) /\
  (forall columns,
     (forall k, In k (match columns with Some c => c | None => keys df end) ->
                In k (keys df)) ->
     none_missing df columns <> Return df ->
     exists locs, none_missing df columns = Raise (AssertionError (Locations locs))).
Proof.
  split; [apply none_missing_Some_pass|]. split.
  - apply none_missing_None_pass.
  - intros columns Hk Hne. unfold none_missing in *.
    destruct (getitems_present df _ Hk) as (sub & Hsub).
    rewrite Hsub in *. simpl in *.
    destruct (any_any (isnull_table sub)); [eauto | congruence].
Qed.

Lemma none_missing_pass_witness :
  let df := mkDataFrame 1%positive [0; 1]%Z
              [("a"%string, mkSeries float64 [Num 1; Num 2]);
               ("b"%string, mkSeries float64 [NaN; Num 2])] in
  none_missing df (Some ["a"%string]) = Return df /\
  exists locs, none_missing df None = Raise (AssertionError (Locations locs)).
Proof.
  intro df. split.
  - apply (proj1 (none_missing_pass df) ["a"%string]).
    intros k [<-|[]]. exists (mkSeries float64 [Num 1; Num 2]).
    split; [reflexivity|]. intros c [<-|[<-|[]]]; reflexivity.
  - apply (proj2 (proj2 (none_missing_pass df)) None).
    + intros k Hk. exact Hk.
    + discriminate.
Defined.



(** ** [is_shape] *)

(** X3. [is_shape] returns the table exactly when the expected shape is
    the pair (number of rows, number of columns) of the table; a shape that
    differs in either component makes it raise an [AssertionError] that
    carries the expected and the actual shape. *)
Theorem is_shape_exact (df : DataFrame) (shape : nat * nat) :
  (is_shape df shape = Return df <->
   shape = (length (index df), length (columns df))) /\
  (shape <> (length (index df), length (columns df)) ->
   is_shape df shape
   = Raise (AssertionError
              (ShapeMsg shape (length (index df), length (columns df))))).
Proof.
  unfold is_shape, shape_eqb, Pandas.shape. destruct shape as [r c]. simpl.
  destruct (Nat.eqb_spec (length (index df)) r) as [<-|Hr];
    destruct (Nat.eqb_spec (length (columns df)) c) as [<-|Hc]; simpl;
    (split; [split; [intro H; try discriminate H; try reflexivity
                    | intro H; try reflexivity; congruence]
            | intro H; try reflexivity; congruence]).
Qed.

Lemma is_shape_exact_witness :
  let df := mkDataFrame 1%positive [0; 1; 2; 3; 4]%Z
              [("a"%string, mkSeries int64 []); ("b"%string, mkSeries int64 []);
               ("c"%string, mkSeries int64 [])] in
  is_shape df (5, 4)%nat
  = Raise (AssertionError (ShapeMsg (5, 4)%nat (5, 3)%nat)).
Proof.
  intro df. apply (proj2 (is_shape_exact df (5, 4)%nat)). discriminate.
Defined.

(** ** [has_dtypes] *)

Lemma dtypes_getitem_lookup k cols :
  dtypes_getitem k (map (fun c => (fst c, dtype_of (snd c))) cols)
  = match lookup k cols with
    | Some s => Return (dtype_of s)
    | None => Raise (KeyError k)
    end.
Proof.
  induction cols as [|[name s] rest IH]; simpl; [reflexivity|].
  now destruct (String.eqb k name).
Qed.

Lemma has_dtypes_step df k v rest :
  has_dtypes df ((k, v) :: rest)
  = (s <- getitem df k ;;
     if dtype_eqb (dtype_of s) v then has_dtypes df rest
     else Raise (AssertionError (WrongDtype k v))).
Proof.
  unfold has_dtypes, Pandas.dtypes, getitem. simpl.
  rewrite dtypes_getitem_lookup.
  destruct (lookup k (columns df)) as [s|]; simpl; [|reflexivity].
  now destruct (dtype_eqb (dtype_of s) v).
Qed.

Lemma dtype_eqb_eq a b : dtype_eqb a b = true <-> a = b.
Proof. destruct a, b; simpl; split; congruence. Qed.

Lemma has_dtypes_pass df items :
  has_dtypes df items = Return df <-> Forall (dtype_ok df) items.
Proof.
  induction items as [|[k v] rest IH].
  - split; [constructor | reflexivity].
  - rewrite has_dtypes_step. split.
    + intro H. apply bind_Return in H. destruct H as (s & Hs & H).
      destruct (dtype_eqb (dtype_of s) v) eqn:E; [|discriminate].
      constructor; [|now apply IH].
      exists s. split; [assumption | now apply dtype_eqb_eq].
    + intro H. inversion H as [|? ? (s & Hs & Hv) Hrest]; subst.
      simpl in Hs, Hv. rewrite Hs. simpl.
      apply dtype_eqb_eq in Hv. rewrite Hv. now apply IH.
Qed.

(** X4. [has_dtypes] returns the table exactly when every entry of [items]
    names a column of the table that carries the expected type tag.  At
    the first entry, in the order of [items], that does not, it raises: an
    [AssertionError] naming that column and the expected tag when the
    column is there with another tag, a [KeyError] when the table has no
    such column; the entries after it play no part. *)
Theorem has_dtypes_first_mismatch
        (df : DataFrame) (items : list (string * dtype)) :
  (has_dtypes df items = Return df <-> Forall (dtype_ok df) items) /\
  (forall pre k v post,
     items = pre ++ (k, v) :: post -> Forall (dtype_ok df) pre ->
     (forall s, getitem df k = Return s -> dtype_of s <> v ->
                has_dtypes df items = Raise (AssertionError (WrongDtype k v))) /\
     (~ In k (keys df) -> has_dtypes df items = Raise (KeyError k))).
Proof.
  split; [apply has_dtypes_pass|].
  intros pre k v post -> Hpre.
  induction Hpre as [|[k' v'] pre' (s' & Hs' & Hv') _ IH].
  - simpl. rewrite has_dtypes_step. split.
    + intros s Hs Hne. rewrite Hs. simpl.
      destruct (dtype_eqb (dtype_of s) v) eqn:E; [|reflexivity].
      apply dtype_eqb_eq in E. contradiction.
    + intro Hk. now rewrite (getitem_absent df k Hk).
  - simpl in Hs', Hv'. simpl app. rewrite has_dtypes_step, Hs'. simpl.
    apply dtype_eqb_eq in Hv'. rewrite Hv'. exact IH.
Qed.

Lemma has_dtypes_first_mismatch_witness :
  let df := mkDataFrame 1%positive [0%Z]
              [("a"%string, mkSeries int64 [Num 1]);
               ("b"%string, mkSeries float64 [Num 2])] in
  has_dtypes df [("a"%string, int64); ("b"%string, object_);
                 ("z"%string, int64)]
  = Raise (AssertionError (WrongDtype "b"%string object_)).
Proof.
  intro df.
  assert (Hpre : Forall (dtype_ok df) [("a"%string, int64)]).
  { constructor; [|constructor].
    exists (mkSeries int64 [Num 1]). split; reflexivity. }
  apply (proj1 (proj2 (has_dtypes_first_mismatch df _)
                  [("a"%string, int64)] "b"%string object_
                  [("z"%string, int64)] eq_refl Hpre)
           (mkSeries float64 [Num 2])).
  - reflexivity.
  - discriminate.
Defined.

(** ** Columns that are not there *)

Lemma is_monotonic_loop_pass df items :
  is_monotonic_loop df items = Return df <-> Forall (monotonic_ok df) items.
Proof.
  induction items as [|[col [inc st]] rest IH]; simpl.
  - split; [constructor | reflexivity].
  - split.
    + intro H. apply bind_Return in H. destruct H as (s & Hs & H).
      destruct (monotonic_good s inc st) eqn:E; [|discriminate].
      constructor; [|now apply IH]. now exists s.
    + intro H. inversion H as [|? ? (s & Hs & Hg) Hrest]; subst.
      simpl in Hs, Hg. rewrite Hs. simpl. rewrite Hg. now apply IH.
Qed.

(** X5. In [is_monotonic], [within_set] and [within_range] an entry of
    [items] that names a column the table does not have raises [KeyError]
    for that name, provided the entries before it pass; whatever the entry
    asks of the column and whatever follows it. *)
Theorem items_key_error (df : DataFrame) (k : string) :
  ~ In k (keys df) ->
  (forall pre setting post increasing strict,
     Forall (monotonic_ok df) pre ->
     is_monotonic df (Some (pre ++ (k, setting) :: post)) increasing strict
     = Raise (KeyError k)) /\
  (forall pre allowed post,
     Forall (set_ok df) pre ->
     within_set df (pre ++ (k, allowed) :: post) = Raise (KeyError k)) /\
  (forall pre bounds post,
     Forall (range_ok df) pre ->
     within_range df (pre ++ (k, bounds) :: post) = Raise (KeyError k)).
Proof.
  intro Hk. pose proof (getitem_absent df k Hk) as Hg. repeat split.
  - intros pre [inc st] post inc0 st0 Hpre. unfold is_monotonic.
    induction Hpre as [|[k' [i' s']] pre' (s & Hs & Hok) _ IH]; simpl.
    + now rewrite Hg.
    + simpl in Hs, Hok. rewrite Hs. simpl. now rewrite Hok.
  - intros pre allowed post Hpre.
    induction Hpre as [|[k' v'] pre' (s & Hs & Hok) _ IH]; simpl.
    + now rewrite Hg.
    + simpl in Hs, Hok.
      assert (E : all (isin (values s) v') = true)
        by (apply all_map_true; exact Hok).
      rewrite Hs. simpl. now rewrite E.
  - intros pre [lo up] post Hpre.
    induction Hpre as [|[k' [lo' up']] pre' (s & Hs & Hok) _ IH]; simpl.
    + now rewrite Hg.
    + simpl in Hs, Hok. rewrite Hs. simpl.
      apply range_test_false in Hok. now rewrite Hok.
Qed.

Lemma items_key_error_witness :
  let df := mkDataFrame 1%positive [0; 1]%Z
              [("a"%string, mkSeries int64 [Num 1; Num 2])] in
  within_range df [("a"%string, (PyInt 0, PyInt 5)); ("z"%string, (PyInt 0, PyInt 1))]
  = Raise (KeyError "z"%string).
Proof.
  intro df.
  assert (Hk : ~ In "z"%string (keys df)).
  { simpl. intros [H|[]]. discriminate H. }
  apply (proj2 (proj2 (items_key_error df "z"%string Hk))
           [("a"%string, (PyInt 0, PyInt 5))] (PyInt 0, PyInt 1) []).
  constructor; [|constructor].
  exists (mkSeries int64 [Num 1; Num 2]). split; [reflexivity|].
  simpl. intros c [<-|[<-|[]]]; reflexivity.
Defined.

(** ** Splitting [items] *)

(** X6. The four checks that loop over [items] handle a mapping made of
    two parts as the check of the first part followed, on the table it
    returns, by the check of the second: the second part is looked at only
    if the first passes, and the first failure is the one raised. *)
Theorem items_split (df : DataFrame) :
  (forall a b increasing strict,
     is_monotonic df (Some (a ++ b)) increasing strict
     = (df' <- is_monotonic df (Some a) increasing strict ;;
        is_monotonic df' (Some b) increasing strict)) /\
  (forall a b,
     within_set df (a ++ b) = (df' <- within_set df a ;; within_set df' b)) /\
  (forall a b,
     within_range df (a ++ b)
     = (df' <- within_range df a ;; within_range df' b)) /\
  (forall a b,
     has_dtypes df (a ++ b) = (df' <- has_dtypes df a ;; has_dtypes df' b)).
Proof.
  repeat split.
  - intros a b inc0 st0. unfold is_monotonic.
    induction a as [|[col [inc st]] a IH]; simpl; [reflexivity|].
    destruct (getitem df col) as [s|e]; simpl; [|reflexivity].
    destruct (monotonic_good s inc st); simpl; [exact IH | reflexivity].
  - intros a b. induction a as [|[k v] a IH]; simpl; [reflexivity|].
    destruct (getitem df k) as [s|e]; simpl; [|reflexivity].
    destruct (all (isin (values s) v)); simpl; [exact IH | reflexivity].
  - intros a b. induction a as [|[k [lo up]] a IH]; simpl; [reflexivity|].
    destruct (getitem df k) as [s|e]; simpl; [|reflexivity].
    destruct (any (map (scalar_gt (dtype_of s) lo) (values s))
              || any (map (scalar_lt (dtype_of s) up) (values s)));
      simpl; [reflexivity | exact IH].
  - intros a b. induction a as [|[k v] a IH]; [reflexivity|].
    simpl app. rewrite !has_dtypes_step.
    destruct (getitem df k) as [s|e]; simpl; [|reflexivity].
    destruct (dtype_eqb (dtype_of s) v); simpl; [exact IH | reflexivity].
Qed.


(** ** What [is_monotonic] asks of a column *)

Lemma cell_leq_numeric a b :
  cell_leq a b -> isnull a = false /\ isnull b = false.
Proof. destruct a as [|[|]|x], b as [|[|]|y]; simpl; tauto. Qed.

Lemma rises_leq a b : rises a b -> cell_leq a b.
Proof.
  intros [H|(t & -> & ->)]; [now apply cell_below_leq|].
  destruct t; exact I.
Qed.

Lemma rises_of_leq a b :
  cell_leq a b -> isnull a = true \/ isnull b = true \/ rises a b -> rises a b.
Proof.
  intros Hle [H|[H|H]]; [| |exact H]; apply cell_leq_numeric in Hle; destruct Hle; congruence.
Qed.

Lemma falls_flat a b :
  cell_leq a b -> isnull a = true \/ isnull b = true \/ rises b a -> rises a b.
Proof.
  intros Hle [H|[H|H]];
    try (apply cell_leq_numeric in Hle; destruct Hle; congruence).
  destruct H as [H|(t & -> & ->)]; [|right; eauto].
  destruct a as [|[|]|x], b as [|[|]|y]; simpl in *; try tauto;
    try (right; eauto).
  qlra.
Qed.

Lemma increasing_positive_rises s :
  diffs_fit s ->
  is_monotonic_increasing (values s) = true /\ diffs_positive s = true <->
  lone_value (values s) /\ ordered rises (values s).
Proof.
  intro Hf. rewrite is_monotonic_increasing_iff, (diffs_positive_iff s Hf).
  unfold non_decreasing. split.
  - intros [[Hl H1] H2]. split; [exact Hl|]. intros a b Hadj.
    apply rises_of_leq; auto.
  - intros [Hl H]. repeat split; [exact Hl | |].
    + intros a b Hadj. apply rises_leq. now apply H.
    + intros a b Hadj. right. right. now apply H.
Qed.

Lemma decreasing_negative_falls s :
  diffs_fit s ->
  is_monotonic_decreasing (values s) = true /\ diffs_negative s = true <->
  lone_value (values s) /\ ordered (fun a b => rises b a) (values s).
Proof.
  intro Hf. rewrite is_monotonic_decreasing_iff, (diffs_negative_iff s Hf).
  unfold non_increasing. split.
  - intros [[Hl H1] H2]. split; [exact Hl|]. intros a b Hadj.
    apply rises_of_leq; [now apply H1|]. specialize (H2 a b Hadj). tauto.
  - intros [Hl H]. repeat split; [exact Hl | |].
    + intros a b Hadj. apply rises_leq. now apply H.
    + intros a b Hadj. right. right. now apply H.
Qed.

Lemma increasing_negative_rises s :
  diffs_fit s ->
  is_monotonic_increasing (values s) = true -> diffs_negative s = true ->
  lone_value (values s) /\ ordered rises (values s).
Proof.
  intro Hf. rewrite is_monotonic_increasing_iff, (diffs_negative_iff s Hf).
  intros [Hl H1] H2. split; [exact Hl|]. intros a b Hadj.
  apply falls_flat; auto.
Qed.

Lemma decreasing_positive_falls s :
  diffs_fit s ->
  is_monotonic_decreasing (values s) = true -> diffs_positive s = true ->
  lone_value (values s) /\ ordered (fun a b => rises b a) (values s).
Proof.
  intro Hf. rewrite is_monotonic_decreasing_iff, (diffs_positive_iff s Hf).
  intros [Hl H1] H2. split; [exact Hl|]. intros a b Hadj.
  apply falls_flat; [now apply H1|]. specialize (H2 a b Hadj). tauto.
Qed.

Lemma monotonic_good_monotone_as
        (s : Series) (increasing : option bool) (strict : bool) :
  (strict = true -> diffs_fit s) ->
  monotonic_good s increasing strict = true <->
  monotone_as increasing strict (values s).
Proof.
  intro Hf. rewrite monotonic_good_eq.
  destruct increasing as [[|]|], strict; simpl;
    rewrite ?andb_true_r, ?andb_true_iff, ?orb_true_iff;
    try specialize (Hf eq_refl).
  - now apply increasing_positive_rises.
  - apply is_monotonic_increasing_iff.
  - now apply decreasing_negative_falls.
  - apply is_monotonic_decreasing_iff.
  - split.
    + intros [[Hi|Hd] [Hp|Hn]].
      * destruct (proj1 (increasing_positive_rises s Hf) (conj Hi Hp)). auto.
      * destruct (increasing_negative_rises s Hf Hi Hn). auto.
      * destruct (decreasing_positive_falls s Hf Hd Hp). auto.
      * destruct (proj1 (decreasing_negative_falls s Hf) (conj Hd Hn)). auto.
    + intros [Hl [H|H]].
      * destruct (proj2 (increasing_positive_rises s Hf) (conj Hl H)). auto.
      * destruct (proj2 (decreasing_negative_falls s Hf) (conj Hl H)). auto.
  - now rewrite is_monotonic_increasing_iff, is_monotonic_decreasing_iff.
Qed.

Lemma monotonic_good_base s increasing strict :
  monotonic_good s increasing strict = true ->
  non_decreasing (values s) \/ non_increasing (values s).
Proof.
  rewrite monotonic_good_eq, <- is_monotonic_increasing_iff,
          <- is_monotonic_decreasing_iff.
  destruct increasing as [[|]|]; rewrite andb_true_iff, ?orb_true_iff; tauto.
Qed.

(** X7. The test [is_monotonic] makes on one column means what its
    parameters say.  Without [strict]: non-decreasing, non-increasing, or
    either of the two when the direction is [None]; a column of one cell
    has to hold a value.  With [strict], on a column whose consecutive
    differences fit its integer type: each value strictly below the next,
    strictly above the next, or either of the two when the direction is
    [None], save that an infinity may repeat.  In particular the
    conjunction the code forms for that last case, (increasing or
    decreasing) and (all differences positive or all negative), accepts no
    column that has both a rise and a fall. *)
Theorem monotonic_good_meaning
        (s : Series) (increasing : option bool) (strict : bool) :
  (strict = true -> diffs_fit s) ->
  (monotonic_good s increasing strict = true <->
   monotone_as increasing strict (values s)) /\
  (monotonic_good s None true = true ->
   forall x y x' y',
     adjacent (values s) (Num x) (Num y) ->
     adjacent (values s) (Num x') (Num y') ->
     ~ (x < y /\ y' < x')).
Proof.
  intro Hf. split; [now apply monotonic_good_monotone_as|].
  intros H x y x' y' Hxy Hxy' [Hup Hdown].
  apply monotonic_good_base in H. destruct H as [[_ H]|[_ H]].
  - pose proof (H _ _ Hxy') as Hle. simpl in Hle. qlra.
  - pose proof (H _ _ Hxy) as Hle. simpl in Hle. qlra.
Qed.

Lemma monotonic_good_meaning_witness :
  let s := mkSeries float64 [Num 1; Num 3; Num 2] in
  ~ monotone_as None true (values s).
Proof.
  intros s H.
  assert (Hf : true = true -> diffs_fit s) by (intros _ E; discriminate E).
  apply (proj1 (monotonic_good_meaning s None true Hf)) in H. discriminate H.
Defined.

Lemma monotonic_ok_entry df it :
  (forall name s, In (name, s) (columns df) -> diffs_fit s) ->
  monotonic_ok df it <-> monotone_entry df it.
Proof.
  intro Hf. unfold monotonic_ok, monotone_entry.
  split; intros (s & Hs & H); exists s; (split; [assumption|]);
    (apply monotonic_good_monotone_as;
     [intros _; apply (Hf (fst it)); now apply getitem_Return_In | exact H]).
Qed.

Lemma is_monotonic_None_pass df increasing strict :
  is_monotonic df None increasing strict = Return df <->
  forall k s, getitem df k = Return s ->
              monotonic_good s increasing strict = true.
Proof.
  unfold is_monotonic. rewrite is_monotonic_loop_pass, Forall_forall. split.
  - intros H k s Hs.
    destruct (H (k, (increasing, strict))) as (s' & Hs' & Hg).
    { apply in_map_iff. exists k. split; [reflexivity|].
      apply dict_keys_In_iff. eapply getitem_Return_key; eauto. }
    simpl in Hs', Hg. rewrite Hs in Hs'. injection Hs' as <-. exact Hg.
  - intros H it Hit. apply in_map_iff in Hit. destruct Hit as (k & <- & Hk).
    apply dict_keys_In in Hk.
    destruct (getitem_present df k Hk) as (s & Hs & _).
    exists s. split; [exact Hs | now apply (H k)].
Qed.

(** X8. On a table whose columns have consecutive differences that fit
    their integer type, [is_monotonic] returns the table exactly when every
    entry of [items] names a column of the table that is ordered as the
    entry asks; with [items] left out, exactly when every column is ordered
    as the direction and strictness passed directly ask.  At the first
    entry that names a column not so ordered it raises a bare
    [AssertionError], whatever entries follow. *)
Theorem is_monotonic_pass (df : DataFrame) :
  (forall name s, In (name, s) (columns df) -> diffs_fit s) ->
  (forall items increasing strict,
     is_monotonic df (Some items) increasing strict = Return df <->
     Forall (monotone_entry df) items) /\
  (forall increasing strict,
     is_monotonic df None increasing strict = Return df <->
     forall k s, getitem df k = Return s ->
                 monotone_as increasing strict (values s)) /\
  (forall pre col increasing strict post s increasing0 strict0,
     Forall (monotone_entry df) pre -> getitem df col = Return s ->
     ~ monotone_as increasing strict (values s) ->
     is_monotonic df (Some (pre ++ (col, (increasing, strict)) :: post))
                  increasing0 strict0
     = Raise (AssertionError NoArgs)).
Proof.
  intro Hf.
  assert (Hcol : forall k s strict,
             getitem df k = Return s -> strict = true -> diffs_fit s).
  { intros k s st Hs _. apply (Hf k). now apply getitem_Return_In. }
  repeat split.
  - unfold is_monotonic. rewrite is_monotonic_loop_pass.
    apply Forall_impl. intro it. now apply monotonic_ok_entry.
  - unfold is_monotonic. rewrite is_monotonic_loop_pass.
    apply Forall_impl. intro it. now apply monotonic_ok_entry.
  - rewrite is_monotonic_None_pass. intros H k s Hs.
    apply monotonic_good_monotone_as; [now apply (Hcol k) | now apply (H k)].
  - rewrite is_monotonic_None_pass. intros H k s Hs.
    apply monotonic_good_monotone_as; [now apply (Hcol k) | now apply (H k)].
  - intros pre col inc st post s inc0 st0 Hpre Hs Hbad. unfold is_monotonic.
    rewrite <- (monotonic_good_monotone_as s inc st (Hcol col s st Hs)) in Hbad.
    apply not_true_is_false in Hbad.
    induction Hpre as [|[k' [i' s']] pre' Hok _ IH]; simpl.
    + rewrite Hs. simpl. now rewrite Hbad.
    + apply (monotonic_ok_entry df _ Hf) in Hok.
      destruct Hok as (s1 & Hs1 & Hg).
      simpl in Hs1, Hg. rewrite Hs1. simpl. now rewrite Hg.
Qed.

Lemma is_monotonic_pass_witness :
  let df := mkDataFrame 1%positive [0; 1; 2]%Z
              [("up"%string, mkSeries float64 [Num 1; Num 2; Num 5]);
               ("flat"%string, mkSeries float64 [Num 3; Num 3; Num 3])] in
  is_monotonic df (Some [("up"%string, (Some true, true));
                         ("flat"%string, (None, true));
                         ("gone"%string, (None, false))]) None false
  = Raise (AssertionError NoArgs).
Proof.
  intro df.
  assert (Hf : forall name s, In (name, s) (columns df) -> diffs_fit s).
  { intros name s [[= <- <-]|[[= <- <-]|[]]] E; discriminate E. }
  apply (proj2 (proj2 (is_monotonic_pass df Hf))
           [("up"%string, (Some true, true))] "flat"%string None true
           [("gone"%string, (None, false))]
           (mkSeries float64 [Num 3; Num 3; Num 3]) None false).
  - constructor; [|constructor]. apply (monotonic_ok_entry df _ Hf).
    exists (mkSeries float64 [Num 1; Num 2; Num 5]). split; reflexivity.
  - reflexivity.
  - intro H.
    apply (monotonic_good_monotone_as
             (mkSeries float64 [Num 3; Num 3; Num 3]) None true) in H;
      [discriminate H|].
    intros _ E. discriminate E.
Defined.

(** ** Relaxing a setting *)

Lemma monotonic_good_relax s increasing strict :
  monotonic_good s increasing strict = true ->
  monotonic_good s increasing false = true /\
  monotonic_good s None strict = true.
Proof.
  rewrite !monotonic_good_eq.
  destruct increasing as [[|]|], strict; simpl;
    rewrite ?andb_true_r, ?andb_true_iff, ?orb_true_iff; tauto.
Qed.

(** X9. A table that passes [is_monotonic] for a direction and a
    strictness also passes it without [strict] in the same direction, and
    passes it with the direction left unspecified at the same strictness:
    dropping [strict] or the direction only relaxes the check. *)
Theorem is_monotonic_relax
        (df : DataFrame) (increasing : option bool) (strict : bool) :
  is_monotonic df None increasing strict = Return df ->
  is_monotonic df None increasing false = Return df /\
  is_monotonic df None None strict = Return df.
Proof.
  rewrite !is_monotonic_None_pass. intro H.
  split; intros k s Hs; apply (monotonic_good_relax _ _ _ (H k s Hs)).
Qed.

Lemma is_monotonic_relax_witness :
  let df := mkDataFrame 1%positive [0; 1; 2]%Z
              [("a"%string, mkSeries int64 [Num 9; Num 4; Num 1])] in
  is_monotonic df None (Some false) false = Return df /\
  is_monotonic df None None true = Return df.
Proof.
  intro df. apply (is_monotonic_relax df (Some false) true). reflexivity.
Defined.

(** ** Missing cells and order *)

Lemma ordered_numeric (R : cell -> cell -> Prop) s :
  (forall a b, R a b -> isnull a = false /\ isnull b = false) ->
  ordered R s -> (2 <= length s)%nat ->
  forall c, In c s -> isnull c = false.
Proof.
  intro HR. induction s as [|a [|b s] IH]; simpl; intros H Hlen; try lia.
  apply ordered_cons in H. destruct H as [Hab H].
  apply HR in Hab. destruct Hab as [Ha Hb].
  intros c [<-|Hc]; [exact Ha|].
  destruct s as [|d s].
  - destruct Hc as [<-|[]]. exact Hb.
  - apply IH; [assumption | simpl; lia | assumption].
Qed.

Lemma monotonic_good_numeric s increasing strict :
  monotonic_good s increasing strict = true -> (2 <= length (values s))%nat ->
  forall c, In c (values s) -> isnull c = false.
Proof.
  intros H Hlen. apply monotonic_good_base in H.
  destruct H as [[_ H]|[_ H]];
    eapply ordered_numeric; eauto; intros a b Hab;
    apply cell_leq_numeric in Hab; tauto.
Qed.

(** X10. On a table of two rows or more, passing [is_monotonic] on all
    columns, under any direction and strictness, implies passing
    [none_missing]: no comparison with a missing cell holds, so a column
    with a missing cell is monotonic in no sense. *)
Theorem is_monotonic_none_missing
        (df : DataFrame) (increasing : option bool) (strict : bool) :
  wf_df df -> (2 <= length (index df))%nat ->
  is_monotonic df None increasing strict = Return df ->
  none_missing df None = Return df.
Proof.
  intros Hwf Hlen H. rewrite is_monotonic_None_pass in H.
  apply none_missing_None_pass. intros k s Hs c Hc.
  apply (monotonic_good_numeric s increasing strict);
    [now apply (H k) | | exact Hc].
  unfold wf_df in Hwf. rewrite Forall_forall in Hwf.
  pose proof (Hwf _ (getitem_Return_In _ _ _ Hs)) as E. simpl in E.
  rewrite E. exact Hlen.
Qed.

Lemma is_monotonic_none_missing_witness :
  let df := mkDataFrame 1%positive [0; 1; 2]%Z
              [("a"%string, mkSeries int64 [Num 1; Num 1; Num 4]);
               ("b"%string, mkSeries int64 [Num 7; Num 6; Num 6])] in
  none_missing df None = Return df.
Proof.
  intro df. apply (is_monotonic_none_missing df None false).
  - repeat constructor.
  - simpl. lia.
  - reflexivity.
Defined.

(** ** More on [within_n_std] *)

Lemma within_n_std_pass df n :
  within_n_std df n = Return df <->
  forall name s c, In (name, s) (columns df) -> In c (values s) ->
                   abs_dev_lt c (mean (values s)) n (var (values s)) = true.
Proof.
  rewrite within_n_std_eq.
  assert (E : np_all (inlier_mask df n) = true <->
              forall name s c, In (name, s) (columns df) -> In c (values s) ->
                abs_dev_lt c (mean (values s)) n (var (values s)) = true).
  { rewrite np_all_inlier_mask. split; intros H name s c Hs Hc;
      apply abs_dev_lt_inlier; now apply (H name). }
  rewrite <- E. destruct (np_all (inlier_mask df n)); split; congruence.
Qed.

Lemma within_n_std_fail df n name s c :
  In (name, s) (columns df) -> In c (values s) ->
  abs_dev_lt c (mean (values s)) n (var (values s)) = false ->
  exists locs, within_n_std df n = Raise (AssertionError (Locations locs)).
Proof.
  intros Hs Hc Hf. rewrite within_n_std_eq.
  destruct (np_all (inlier_mask df n)) eqn:E; [|eauto].
  assert (H : within_n_std df n = Return df)
    by (rewrite within_n_std_eq; now rewrite E).
  rewrite within_n_std_pass in H. rewrite (H _ _ _ Hs Hc) in Hf. discriminate.
Qed.

(** X11. A table that passes [within_n_std], for any [n], passes
    [none_missing]: a missing cell is never an inlier. *)
Theorem within_n_std_none_missing (df : DataFrame) (n : Q) :
  within_n_std df n = Return df -> none_missing df None = Return df.
Proof.
  rewrite within_n_std_pass. intro H.
  apply none_missing_None_pass. intros k s Hs c Hc.
  specialize (H k s c (getitem_Return_In _ _ _ Hs) Hc).
  destruct c; [discriminate H | reflexivity | reflexivity].
Qed.

Lemma within_n_std_none_missing_witness :
  let df := mkDataFrame 1%positive [0; 1; 2]%Z
              [("a"%string, mkSeries int64 [Num 1; Num 2; Num 3])] in
  none_missing df None = Return df.
Proof.
  intro df. apply (within_n_std_none_missing df 2). reflexivity.
Defined.

Lemma abs_dev_lt_mono c m v (n n' : Q) :
  n <= n' -> (forall s2, v = Some s2 -> 0 <= s2) ->
  abs_dev_lt c m n v = true -> abs_dev_lt c m n' v = true.
Proof.
  intros Hn Hv. unfold abs_dev_lt.
  destruct c as [|t|x]; [trivial | trivial |]. destruct m as [mu|]; [|trivial].
  destruct v as [s2|]; [|trivial]. specialize (Hv s2 eq_refl).
  unfold Qabs_lt_mul_sqrt. rewrite !andb_true_iff, !Qlt_bool_iff.
  unfold sq. intros [H0 Hlt]. split; [qlra|].
  assert (H1 : 0 <= (n' - n) * (n' + n))
    by (apply Qmult_le_0_compat; qlra).
  assert (H2 : 0 <= (n' - n) * (n' + n) * s2)
    by (apply Qmult_le_0_compat; assumption).
  qlra.
Qed.

(** X12. Raising [n] only relaxes [within_n_std]: a table that passes for
    [n] passes for every larger multiplier. *)
Theorem within_n_std_monotone (df : DataFrame) (n n' : Q) :
  n <= n' ->
  within_n_std df n = Return df -> within_n_std df n' = Return df.
Proof.
  intro Hn. rewrite !within_n_std_pass. intros H name s c Hs Hc.
  apply (abs_dev_lt_mono _ _ _ n n' Hn); [|now apply (H name)].
  intros s2. apply var_nonneg.
Qed.

Lemma within_n_std_monotone_witness :
  let df := mkDataFrame 1%positive [0; 1; 2]%Z
              [("a"%string, mkSeries int64 [Num 1; Num 2; Num 3])] in
  within_n_std df default_n = Return df.
Proof.
  intro df. apply (within_n_std_monotone df 2 default_n).
  - discriminate.
  - reflexivity.
Defined.

(** X13. With a multiplier [n] that is zero or negative [within_n_std]
    raises on every table that has a cell at all: no distance from the
    mean is strictly below a bound that is not positive. *)
Theorem within_n_std_nonpositive
        (df : DataFrame) (n : Q) (name : string) (s : Series) :
  n <= 0 -> In (name, s) (columns df) -> values s <> [] ->
  exists locs, within_n_std df n = Raise (AssertionError (Locations locs)).
Proof.
  intros Hn Hs Hne. destruct (values s) as [|c tl] eqn:E; [congruence|].
  apply (within_n_std_fail df n name s c Hs); [rewrite E; now left|].
  unfold abs_dev_lt. destruct c as [|t|x]; [reflexivity | reflexivity |].
  destruct (mean _); [|reflexivity]. destruct (var _); [|reflexivity].
  unfold Qabs_lt_mul_sqrt. apply andb_false_iff. left.
  now apply Qlt_bool_false_iff.
Qed.

Lemma within_n_std_nonpositive_witness :
  let df := mkDataFrame 1%positive [0; 1; 2]%Z
              [("a"%string, mkSeries int64 [Num 1; Num 2; Num 3])] in
  exists locs, within_n_std df 0 = Raise (AssertionError (Locations locs)).
Proof.
  intro df.
  apply (within_n_std_nonpositive df 0 "a"%string
           (mkSeries int64 [Num 1; Num 2; Num 3])).
  - discriminate.
  - now left.
  - discriminate.
Defined.

Lemma present_length s : (length (present s) <= length s)%nat.
Proof.
  induction s as [|[|t|x] tl IH]; simpl; lia.
Qed.

(** X14. [within_n_std] raises, for every [n], on a table that holds a
    missing cell, and on every table of one row that has a column: a
    missing cell compares false, and one value has no standard deviation
    to compare with. *)
Theorem within_n_std_undefined (df : DataFrame) (n : Q) :
  (forall name s, In (name, s) (columns df) -> In NaN (values s) ->
     exists locs, within_n_std df n = Raise (AssertionError (Locations locs))) /\
  (wf_df df -> length (index df) = 1%nat -> columns df <> [] ->
   exists locs, within_n_std df n = Raise (AssertionError (Locations locs))).
Proof.
  split.
  - intros name s Hs Hc. now apply (within_n_std_fail df n name s NaN).
  - intros Hwf Hlen Hne.
    destruct (columns df) as [|[name s] rest] eqn:E; [congruence|].
    assert (Hs : In (name, s) (columns df)) by (rewrite E; now left).
    assert (Hl : length (values s) = 1%nat).
    { unfold wf_df in Hwf. rewrite Forall_forall in Hwf.
      rewrite <- Hlen. exact (Hwf _ Hs). }
    assert (Hv : var (values s) = None).
    { unfold var. pose proof (present_length (values s)) as Hp.
      rewrite Hl in Hp.
      destruct (Nat.ltb_spec (length (present (values s))) 2);
        [now rewrite orb_true_r | lia]. }
    assert (Hex : exists c, In c (values s)).
    { destruct (values s) as [|c tl]; [discriminate Hl | exists c; now left]. }
    destruct Hex as (c & Hc).
    apply (within_n_std_fail df n name s c Hs Hc).
    unfold abs_dev_lt. rewrite Hv.
    destruct c; [reflexivity | reflexivity |]. now destruct (mean _).
Qed.

Lemma within_n_std_undefined_witness :
  let df := mkDataFrame 1%positive [0%Z]
              [("a"%string, mkSeries int64 [Num 1])] in
  exists locs, within_n_std df default_n
               = Raise (AssertionError (Locations locs)).
Proof.
  intro df. apply (proj2 (within_n_std_undefined df default_n)).
  - repeat constructor.
  - reflexivity.
  - discriminate.
Defined.

(** ** A table without rows *)

(** X15. A table without rows passes [none_missing], [unique_index] and
    [within_n_std], and passes [within_set] and [within_range] for every
    [items] that names columns of the table, whatever the allowed values
    and the bounds: each of these checks only ever faults a cell or a row
    identifier. *)
Theorem empty_table_passes (df : DataFrame) :
  wf_df df -> index df = [] ->
  none_missing df None = Return df /\
  unique_index df = Return df /\
  (forall n, within_n_std df n = Return df) /\
  (forall items, (forall k, In k (map fst items) -> In k (keys df)) ->
                 within_set df items = Return df) /\
  (forall items, (forall k, In k (map fst items) -> In k (keys df)) ->
                 within_range df items = Return df).
Proof.
  intros Hwf Hidx.
  assert (Hempty : forall name s, In (name, s) (columns df) -> values s = []).
  { intros name s Hs. unfold wf_df in Hwf. rewrite Forall_forall in Hwf.
    specialize (Hwf _ Hs). simpl in Hwf. rewrite Hidx in Hwf.
    now apply length_zero_iff_nil. }
  repeat split.
  - apply none_missing_None_pass. intros k s Hs c Hc.
    rewrite (Hempty _ _ (getitem_Return_In _ _ _ Hs)) in Hc. contradiction.
  - unfold unique_index. now rewrite Hidx.
  - intro n. apply within_n_std_pass. intros name s c Hs Hc.
    rewrite (Hempty _ _ Hs) in Hc. contradiction.
  - intros items Hk. apply within_set_pass. apply Forall_forall.
    intros [k v] Hit. destruct (getitem_present df k) as (s & Hs & Hin).
    { apply Hk. apply in_map_iff. now exists (k, v). }
    exists s. split; [exact Hs|]. intros c Hc.
    rewrite (Hempty _ _ Hin) in Hc. contradiction.
  - intros items Hk. apply within_range_pass. apply Forall_forall.
    intros [k v] Hit. destruct (getitem_present df k) as (s & Hs & Hin).
    { apply Hk. apply in_map_iff. now exists (k, v). }
    exists s. split; [exact Hs|]. intros c Hc.
    rewrite (Hempty _ _ Hin) in Hc. contradiction.
Qed.

Lemma empty_table_passes_witness :
  let df := mkDataFrame 1%positive []
              [("a"%string, mkSeries int64 []);
               ("b"%string, mkSeries float64 [])] in
  within_range df [("b"%string, (PyInt 5, PyFloat (Num 1)))] = Return df.
Proof.
  intro df.
  destruct (empty_table_passes df) as (_ & _ & _ & _ & H).
  - repeat constructor.
  - reflexivity.
  - apply H. simpl. intros k [<-|[]]. auto.
Defined.

(** ** Relaxing bounds and allowed values *)







Lemma member_incl (v v' : list cell) c :
  incl v v' -> member v c = true -> member v' c = true.
Proof.
  unfold member. rewrite !existsb_exists. intros Hincl (y & Hy & E).
  exists y. split; [now apply Hincl | exact E].
Qed.

(** X17. Allowing more values only relaxes [within_set]: a table that
    passes for [items] passes when every entry allows at least the values
    it allowed; and it passes for any selection of the entries of [items],
    in any order. *)
Theorem within_set_relax (df : DataFrame) (items : list (string * list cell)) :
  within_set df items = Return df ->
  (forall items', Forall2 wider_set items items' ->
                  within_set df items' = Return df) /\
  (forall items', incl items' items -> within_set df items' = Return df).
Proof.
  rewrite within_set_pass. intro H. split.
  - intros items' Hw. apply within_set_pass.
    induction Hw as [|[k v] [k' v'] l l' (Hk & Hv) _ IH]; [constructor|].
    simpl in Hk, Hv. subst k'.
    inversion H as [|? ? (s & Hs & Hok) Hrest]; subst.
    constructor; [|now apply IH].
    exists s. split; [exact Hs|]. intros c Hc.
    apply (member_incl v); [exact Hv | now apply Hok].
  - intros items' Hincl. apply within_set_pass.
    rewrite Forall_forall in *. auto.
Qed.

Lemma within_set_relax_witness :
  let df := mkDataFrame 1%positive [0; 1]%Z
              [("a"%string, mkSeries int64 [Num 1; Num 4])] in
  within_set df [("a"%string, [Num 4; Num 2; Num 1])] = Return df.
Proof.
  intro df.
  apply (proj1 (within_set_relax df [("a"%string, [Num 1; Num 4])] eq_refl)).
  constructor; [|constructor]. split; [reflexivity|].
  simpl. intros c [<-|[<-|[]]]; simpl; auto.
Defined.

(** X18. An entry of [items] that allows no value at all makes
    [within_set] raise as soon as its column has a row, whatever the cell
    holds. *)
Theorem within_set_nothing_allowed
        (df : DataFrame) (items : list (string * list cell))
        (k : string) (s : Series) :
  In (k, []) items -> getitem df k = Return s -> values s <> [] ->
  exists e, within_set df items = Raise e.
Proof.
  intros Hin Hs Hne.
  destruct (within_set df items) as [df'|e] eqn:E; [|eauto]. exfalso.
  assert (df' = df) by (eapply within_set_returns; eauto). subst df'.
  apply within_set_pass in E. rewrite Forall_forall in E.
  destruct (E _ Hin) as (s' & Hs' & Hok). simpl in Hs', Hok.
  rewrite Hs in Hs'. injection Hs' as <-.
  destruct (values s) as [|c tl]; [congruence|].
  specialize (Hok c (or_introl eq_refl)). discriminate Hok.
Qed.

Lemma within_set_nothing_allowed_witness :
  let df := mkDataFrame 1%positive [0%Z]
              [("a"%string, mkSeries float64 [NaN])] in
  exists e, within_set df [("a"%string, [])] = Raise e.
Proof.
  intro df.
  apply (within_set_nothing_allowed df _ "a"%string (mkSeries float64 [NaN])).
  - now left.
  - reflexivity.
  - discriminate.
Defined.

(** ** Chaining checks *)

(** X19. Two checks chained, the second applied to what the first
    returns, return the table exactly when each of them passes on it, so
    that the order of the two does not matter for passing; when the chain
    raises, the exception is that of the first check if it fails and that
    of the second on the same table otherwise. *)
Theorem chain_of_checks (c1 c2 : call) (df : DataFrame) :
  ((df1 <- apply_check c1 df ;; apply_check c2 df1) = Return df <->
   apply_check c1 df = Return df /\ apply_check c2 df = Return df) /\
  ((df1 <- apply_check c1 df ;; apply_check c2 df1) = Return df <->
   (df1 <- apply_check c2 df ;; apply_check c1 df1) = Return df) /\
  (forall e,
     (df1 <- apply_check c1 df ;; apply_check c2 df1) = Raise e <->
     apply_check c1 df = Raise e \/
     (apply_check c1 df = Return df /\ apply_check c2 df = Raise e)).
Proof.
  assert (H : forall a b,
             (df1 <- apply_check a df ;; apply_check b df1) = Return df <->
             apply_check a df = Return df /\ apply_check b df = Return df).
  { intros a b. destruct (apply_check a df) as [df1|e] eqn:E; simpl.
    - apply apply_check_returns in E. subst df1. split; [auto | tauto].
    - split; [discriminate | intros [H _]; discriminate]. }
  split; [apply H|]. split; [rewrite !H; tauto|].
  intro e. destruct (apply_check c1 df) as [df1|e1] eqn:E; simpl.
  - apply apply_check_returns in E. subst df1. split; [auto|].
    intros [H'|[_ H']]; [discriminate | exact H'].
  - split; [auto|]. intros [H'|[H' _]]; [exact H' | discriminate].
Qed.

(** ** The index, whatever the order of the rows *)

Lemma sorted_NoDup_unique (l1 l2 : list Z) :
  StronglySorted Z.le l1 -> StronglySorted Z.le l2 ->
  NoDup l1 -> NoDup l2 -> (forall x, In x l1 <-> In x l2) -> l1 = l2.
Proof.
  revert l2. induction l1 as [|a l1 IH]; intros [|b l2] S1 S2 N1 N2 H.
  - reflexivity.
  - exfalso. apply (proj2 (H b)). now left.
  - exfalso. apply (proj1 (H a)). now left.
  - inversion S1 as [|? ? S1' F1]; inversion S2 as [|? ? S2' F2]; subst.
    inversion N1 as [|? ? Na N1']; inversion N2 as [|? ? Nb N2']; subst.
    rewrite Forall_forall in F1, F2.
    assert (E : a = b).
    { destruct (proj1 (H a) (or_introl eq_refl)) as [->|Ha]; [reflexivity|].
      destruct (proj2 (H b) (or_introl eq_refl)) as [->|Hb]; [reflexivity|].
      specialize (F1 _ Hb). specialize (F2 _ Ha). lia. }
    subst b. f_equal. apply IH; try assumption.
    intro x. split; intro Hx.
    + destruct (proj1 (H x) (or_intror Hx)) as [->|Hx']; [contradiction | exact Hx'].
    + destruct (proj2 (H x) (or_intror Hx)) as [->|Hx']; [contradiction | exact Hx'].
Qed.

Lemma get_duplicates_Permutation (l l' : list Z) :
  Permutation l l' -> Index.get_duplicates l = Index.get_duplicates l'.
Proof.
  intro HP. apply sorted_NoDup_unique.
  - apply Sorted_StronglySorted; [exact Z.le_trans | apply sorted_Sorted].
  - apply Sorted_StronglySorted; [exact Z.le_trans | apply sorted_Sorted].
  - apply get_duplicates_NoDup.
  - apply get_duplicates_NoDup.
  - intro x. rewrite !get_duplicates_In. unfold Index.count.
    now rewrite (proj1 (Permutation_count_occ Z.eq_dec l l') HP x).
Qed.

(** X20. The verdict of [unique_index] and the duplicates it reports do
    not depend on the order of the rows: two tables whose indexes hold the
    same identifiers the same number of times either both pass or raise
    with the same payload. *)
Theorem unique_index_row_order (df df' : DataFrame) :
  Permutation (index df) (index df') ->
  (unique_index df = Return df <-> unique_index df' = Return df') /\
  (forall e, unique_index df = Raise e <-> unique_index df' = Raise e).
Proof.
  intro HP. unfold unique_index.
  rewrite (get_duplicates_Permutation _ _ HP).
  assert (E : Index.is_unique (index df) = Index.is_unique (index df')).
  { apply eq_true_iff_eq. rewrite !is_unique_NoDup.
    split; apply Permutation_NoDup; [exact HP | now symmetry]. }
  rewrite E. destruct (Index.is_unique (index df')).
  - split; [tauto | intro e; split; discriminate].
  - split; [split; discriminate | tauto].
Qed.

Lemma unique_index_row_order_witness :
  let df := mkDataFrame 1%positive [3; 1; 3]%Z [] in
  let df' := mkDataFrame 2%positive [1; 3; 3]%Z [] in
  unique_index df = Raise (AssertionError (Duplicates [3%Z])) <->
  unique_index df' = Raise (AssertionError (Duplicates [3%Z])).
Proof.
  intros df df'.
  apply (proj2 (unique_index_row_order df df'
                  (perm_swap 1%Z 3%Z [3%Z]))).
Defined.

(** X21. When [unique_index] raises, its payload is never empty and lists
    only identifiers of the index. *)
Theorem unique_index_payload (df : DataFrame) (d : list Z) :
  unique_index df = Raise (AssertionError (Duplicates d)) ->
  d <> [] /\ incl d (index df).
Proof.
  unfold unique_index.
  destruct (Index.is_unique (index df)) eqn:E; [discriminate|].
  intros [= <-]. split.
  - intro Hd.
    assert (Hn : ~ NoDup (index df)).
    { intro H. apply is_unique_NoDup in H. congruence. }
    apply Hn. apply (NoDup_count_occ Z.eq_dec). intro x.
    destruct (le_lt_dec (count_occ Z.eq_dec (index df) x) 1) as [|Hlt];
      [assumption|].
    exfalso. assert (Hin : In x (Index.get_duplicates (index df)))
      by (apply get_duplicates_In; unfold Index.count; lia).
    rewrite Hd in Hin. contradiction.
  - intros x Hx. apply get_duplicates_In in Hx.
    apply (count_occ_In Z.eq_dec). unfold Index.count in Hx. lia.
Qed.

Lemma unique_index_payload_witness :
  let df := mkDataFrame 1%positive [1; 2; 2; 3]%Z [] in
  [2%Z] <> [] /\ incl [2%Z] (index df).
Proof.
  intro df. apply (unique_index_payload df [2%Z]). reflexivity.
Defined.

(** ** Calls that name no column *)

Lemma is_monotonic_loop_present df items :
  (forall k, In k (map fst items) -> In k (keys df)) ->
  is_monotonic_loop df items = Return df \/
  is_monotonic_loop df items = Raise (AssertionError NoArgs).
Proof.
  induction items as [|[col [inc st]] rest IH]; simpl; intro H; [now left|].
  destruct (getitem_present df col) as (s & Hs & _); [apply H; now left|].
  rewrite Hs. simpl.
  destruct (monotonic_good s inc st); simpl; [|now right].
  apply IH. intros k Hk. apply H. now right.
Qed.

(** X22. A check called without naming a column ([none_missing] and
    [is_monotonic] with their defaults, [is_shape], [unique_index],
    [within_n_std]) either returns the table or raises an
    [AssertionError]; it never raises [KeyError]. *)
Theorem no_key_error_without_names (c : call) (df : DataFrame) :
  names_no_column c ->
  apply_check c df = Return df \/
  exists args, apply_check c df = Raise (AssertionError args).
Proof.
  destruct c as [[cols|]|[items|] inc st|shape| | | |n|]; simpl;
    intro H; try contradiction.
  - unfold none_missing.
    destruct (getitems_present df (keys df)) as (sub & Hsub); [auto|].
    rewrite Hsub. simpl. destruct (any_any (isnull_table sub)); eauto.
  - unfold is_monotonic.
    destruct (is_monotonic_loop_present df
                (map (fun k => (k, (inc, st))) (dict_keys (keys df))))
      as [E|E]; [|rewrite E; now left | rewrite E; eauto].
    intros k Hk. rewrite map_map in Hk. simpl in Hk. rewrite map_id in Hk.
    now apply dict_keys_In.
  - unfold is_shape. destruct (shape_eqb _ _); eauto.
  - unfold unique_index. destruct (Index.is_unique _); eauto.
  - rewrite within_n_std_eq. destruct (np_all _); eauto.
Qed.

Lemma no_key_error_without_names_witness :
  let df := mkDataFrame 1%positive [0; 1]%Z
              [("a"%string, mkSeries int64 [Num 2; Num 1])] in
  apply_check (call_is_monotonic None (Some true) false) df = Return df \/
  exists args,
    apply_check (call_is_monotonic None (Some true) false) df
    = Raise (AssertionError args).
Proof.
  intro df.
  apply (no_key_error_without_names
           (call_is_monotonic None (Some true) false) df).
  exact I.
Defined.
